(** * Cause-list parser: a shallow embedding of [cause_list_parser.py] and [app.py]

    The development follows the Python module top to bottom: the string
    methods and the regular expressions it relies on, the name normaliser
    [smart_title], the line classifier [is_meta_line], court detection and the
    column split, the per-page entry state machine of [parse_pdf], and the
    record index with its two front ends (the command line [main] and the
    Streamlit script).

    Text.  A Python [str] is modelled by [string]; the character predicates
    ([isspace], [isdigit], word characters, case mapping) are Python's on the
    ASCII range, which is the alphabet of the cause lists.  A character above
    127 is an uncased symbol that is neither a space, a digit nor a word
    character.

    Geometry.  PyMuPDF reports coordinates as floats; they are modelled by the
    rationals they denote, which is exact for the comparisons and for
    [round(., 1)]. *)

From Stdlib Require Import Ascii String ZArith NArith QArith Qround Lia Bool Sorted.
From stdpp Require Import base list strings pretty gmap sorting.


(** ** Python string methods *)

Module PyStr.

Definition code (a : ascii) : N := N_of_ascii a.

Definition between (lo hi : N) (a : ascii) : bool :=
  ((lo <=? code a) && (code a <=? hi))%N.

(** [str.isspace] on one character; also the class [\s] of [re]. *)
Definition isspace (a : ascii) : bool :=
  between 9 13 a || between 28 32 a.

(** [str.isdigit] on one character; also the class [\d]. *)
Definition isdigit (a : ascii) : bool := between 48 57 a.

Definition isupper (a : ascii) : bool := between 65 90 a.
Definition islower (a : ascii) : bool := between 97 122 a.
Definition isalpha (a : ascii) : bool := isupper a || islower a.

(** The class [\w]. *)
Definition isword (a : ascii) : bool :=
  isalpha a || isdigit a || (code a =? 95)%N.

Definition upper_char (a : ascii) : ascii :=
  if islower a then ascii_of_N (code a - 32) else a.
Definition lower_char (a : ascii) : ascii :=
  if isupper a then ascii_of_N (code a + 32) else a.

Fixpoint map_chars (f : ascii -> ascii) (s : string) : string :=
  match s with
  | "" => ""
  | String a s' => String (f a) (map_chars f s')
  end.

Definition upper : string -> string := map_chars upper_char.
Definition lower : string -> string := map_chars lower_char.

(** [str.capitalize]: first character upper-cased, the rest lower-cased. *)
Definition capitalize (s : string) : string :=
  match s with
  | "" => ""
  | String a s' => String (upper_char a) (lower s')
  end.

Fixpoint existsb_chars (f : ascii -> bool) (s : string) : bool :=
  match s with
  | "" => false
  | String a s' => f a || existsb_chars f s'
  end.

Fixpoint forallb_chars (f : ascii -> bool) (s : string) : bool :=
  match s with
  | "" => true
  | String a s' => f a && forallb_chars f s'
  end.

(** [c in s] for a one-character [c]. *)
Definition contains_char (c : ascii) (s : string) : bool :=
  existsb_chars (Ascii.eqb c) s.

Definition snoc (s : string) (a : ascii) : string := s +:+ String a "".

Fixpoint srev (s : string) : string :=
  match s with
  | "" => ""
  | String a s' => snoc (srev s') a
  end.

Fixpoint lstrip_by (f : ascii -> bool) (s : string) : string :=
  match s with
  | "" => ""
  | String a s' => if f a then lstrip_by f s' else s
  end.

Definition rstrip_by (f : ascii -> bool) (s : string) : string :=
  srev (lstrip_by f (srev s)).

Definition strip_by (f : ascii -> bool) (s : string) : string :=
  rstrip_by f (lstrip_by f s).

(** [s.strip()] *)
Definition strip : string -> string := strip_by isspace.

(** [s.strip(chars)] *)
Definition strip_chars (chars : string) : string -> string :=
  strip_by (fun a => contains_char a chars).

(** [s.split()]: the maximal runs of non-space characters. *)
Fixpoint split_go (tok : string) (s : string) : list string :=
  match s with
  | "" => match tok with "" => [] | _ => [tok] end
  | String a s' =>
      if isspace a
      then match tok with
           | "" => split_go "" s'
           | _ => tok :: split_go "" s'
           end
      else split_go (snoc tok a) s'
  end.

Definition split : string -> list string := split_go "".

(** [sep.join(l)] *)
Fixpoint join (sep : string) (l : list string) : string :=
  match l with
  | [] => ""
  | [w] => w
  | w :: l' => w +:+ sep +:+ join sep l'
  end.

(** [s.split(sep)] for a one-character separator: every separator cuts,
    empty pieces are kept. *)
Fixpoint split_on_go (sep : ascii) (piece : string) (s : string) : list string :=
  match s with
  | "" => [piece]
  | String a s' =>
      if Ascii.eqb a sep
      then piece :: split_on_go sep "" s'
      else split_on_go sep (snoc piece a) s'
  end.

Definition split_on (sep : ascii) : string -> list string :=
  split_on_go sep "".

(** Line boundaries of [str.splitlines]: LF, CR, VT, FF, FS, GS, RS. *)
Definition islinebreak (a : ascii) : bool :=
  between 10 13 a || between 28 30 a.

Definition is_cr (a : ascii) : bool := (code a =? 13)%N.
Definition is_lf (a : ascii) : bool := (code a =? 10)%N.

(** [s.splitlines()]: CR LF counts as one boundary, and a final boundary
    opens no empty last line. *)
Fixpoint splitlines_go (cur : string) (s : string) : list string :=
  match s with
  | "" => match cur with "" => [] | _ => [cur] end
  | String a s' =>
      if islinebreak a
      then cur ::
           match s' with
           | String b s'' =>
               if is_cr a && is_lf b then splitlines_go "" s''
               else splitlines_go "" s'
           | "" => splitlines_go "" s'
           end
      else splitlines_go (snoc cur a) s'
  end.

Definition splitlines : string -> list string := splitlines_go "".

(** [s.startswith(p)] *)
Fixpoint startswith (p s : string) : bool :=
  match p, s with
  | "", _ => true
  | String a p', String b s' => Ascii.eqb a b && startswith p' s'
  | _, "" => false
  end.

(** [p in s] for strings *)
Fixpoint contains (p s : string) : bool :=
  startswith p s ||
  match s with
  | "" => false
  | String _ s' => contains p s'
  end.

(** Truth value of a string: non-empty. *)
Definition truthy (s : string) : bool :=
  match s with "" => false | _ => true end.

(** The first [n] characters. *)
Fixpoint first_n (n : nat) (s : string) : string :=
  match n, s with
  | S n', String a s' => String a (first_n n' s')
  | _, _ => ""
  end.

End PyStr.

(** ** The fragment of [re] the module uses

    A backtracking matcher in continuation-passing style, with Python's
    priorities: a greedy repetition tries one more round before it lets the
    rest of the pattern run, an alternation tries its branches left to
    right, and the first success wins. *)

Module Re.
Import PyStr.

Inductive regex : Type :=
| Eps                                   (* empty pattern *)
| Chr (f : ascii -> bool)               (* one character of a class *)
| Seq (r1 r2 : regex)
| Alt (r1 r2 : regex)                   (* r1|r2 *)
| Star (r : regex)                      (* r*, greedy *)
| Bol                                   (* ^ *)
| Eol                                   (* $ *)
| WordB                                 (* \b *)
| Group (n : nat) (r : regex).          (* capturing group number n *)

(** A position in the subject: the character just before it, if any, and
    what remains. *)
Record pos : Type := Pos { prev : option ascii; rest : string }.

Definition caps : Type := list (nat * string).

(** A match object: where the match ends and what the groups hold. *)
Record mobj : Type := MObj { m_end : pos; m_groups : caps }.

Definition cont : Type := pos -> caps -> option mobj.

Definition is_word_opt (o : option ascii) : bool :=
  match o with Some a => isword a | None => false end.

Definition next_char (p : pos) : option ascii :=
  match rest p with "" => None | String a _ => Some a end.

Definition at_boundary (p : pos) : bool :=
  xorb (is_word_opt (prev p)) (is_word_opt (next_char p)).

(** [$] without MULTILINE: the end, or just before a final newline. *)
Definition at_eol (p : pos) : bool :=
  match rest p with
  | "" => true
  | String a "" => is_lf a
  | _ => false
  end.

(** The text between two positions of one subject. *)
Definition between_pos (p p' : pos) : string :=
  first_n (String.length (rest p) - String.length (rest p')) (rest p).

(** One more round of a starred pattern [m], then the rest [k]; a round
    must consume something.  [fuel] bounds the rounds by the characters
    left, so it never cuts a match short. *)
Fixpoint star_loop (m : cont -> cont) (fuel : nat) (k : cont) (p : pos) (c : caps)
  : option mobj :=
  match fuel with
  | O => k p c
  | S fuel' =>
      match m (fun p' c' =>
                 if (String.length (rest p') <? String.length (rest p))%nat
                 then star_loop m fuel' k p' c'
                 else None) p c with
      | Some r => Some r
      | None => k p c
      end
  end.

Fixpoint run (r : regex) (k : cont) (p : pos) (c : caps) : option mobj :=
  match r with
  | Eps => k p c
  | Chr f =>
      match rest p with
      | String a s' => if f a then k (Pos (Some a) s') c else None
      | "" => None
      end
  | Seq r1 r2 => run r1 (run r2 k) p c
  | Alt r1 r2 =>
      match run r1 k p c with
      | Some m => Some m
      | None => run r2 k p c
      end
  | Star r1 => star_loop (run r1) (String.length (rest p)) k p c
  | Bol => match prev p with None => k p c | Some _ => None end
  | Eol => if at_eol p then k p c else None
  | WordB => if at_boundary p then k p c else None
  | Group n r1 => run r1 (fun p' c' => k p' ((n, between_pos p p') :: c')) p c
  end.

Definition accept : cont := fun p c => Some (MObj p c).
Definition accept_at_end : cont :=
  fun p c => match rest p with "" => Some (MObj p c) | _ => None end.

(** [pattern.match(s)] *)
Definition pmatch (r : regex) (s : string) : option mobj :=
  run r accept (Pos None s) [].

(** [re.fullmatch(pattern, s)] *)
Definition fullmatch (r : regex) (s : string) : option mobj :=
  run r accept_at_end (Pos None s) [].

(** [pattern.search(s)]: the leftmost position where a match starts. *)
Fixpoint search_from (r : regex) (pv : option ascii) (s : string) : option mobj :=
  match run r accept (Pos pv s) [] with
  | Some m => Some m
  | None =>
      match s with
      | "" => None
      | String a s' => search_from r (Some a) s'
      end
  end.

Definition search (r : regex) (s : string) : option mobj :=
  search_from r None s.

(** [m.group(n)] for a group that took part in the match. *)
Fixpoint group (n : nat) (c : caps) : option string :=
  match c with
  | [] => None
  | (i, s) :: c' => if Nat.eqb i n then Some s else group n c'
  end.

Definition is_match (o : option mobj) : bool :=
  match o with Some _ => true | None => false end.

(** Pattern syntax *)
Definition Opt (r : regex) : regex := Alt r Eps.          (* r? *)
Definition Plus (r : regex) : regex := Seq r (Star r).    (* r+ *)

Fixpoint upto (n : nat) (r : regex) : regex :=            (* r{0,n} *)
  match n with
  | O => Eps
  | S n' => Opt (Seq r (upto n' r))
  end.

Fixpoint exactly (n : nat) (r : regex) : regex :=         (* r{n} *)
  match n with
  | O => Eps
  | S n' => Seq r (exactly n' r)
  end.

Definition Rep (lo hi : nat) (r : regex) : regex :=       (* r{lo,hi} *)
  Seq (exactly lo r) (upto (hi - lo) r).

Definition lit (a : ascii) : regex := Chr (Ascii.eqb a).
(** a literal under IGNORECASE *)
Definition ilit (a : ascii) : regex :=
  Chr (fun b => Ascii.eqb (lower_char a) (lower_char b)).

Fixpoint str (s : string) : regex :=
  match s with
  | "" => Eps
  | String a s' => Seq (lit a) (str s')
  end.

Fixpoint istr (s : string) : regex :=
  match s with
  | "" => Eps
  | String a s' => Seq (ilit a) (istr s')
  end.

Definition oneof (chars : string) : regex :=
  Chr (fun a => contains_char a chars).

Definition space : regex := Chr isspace.    (* \s *)
Definition digit : regex := Chr isdigit.    (* \d *)

Fixpoint alts (l : list regex) : regex :=
  match l with
  | [] => Chr (fun _ => false)
  | [r] => r
  | r :: l' => Alt r (alts l')
  end.

Fixpoint seqs (l : list regex) : regex :=
  match l with
  | [] => Eps
  | [r] => r
  | r :: l' => Seq r (seqs l')
  end.

End Re.

(** ** The module's patterns *)

Import PyStr Re.

(** [^\s*(\d{1,3}(?:\.\d+)?)\b] *)
Definition SERIAL_RE : regex :=
  seqs [Bol; Star space;
        Group 1 (Seq (Rep 1 3 digit) (Opt (Seq (lit ".") (Plus digit))));
        WordB].

(** [COURT\s*NO\.?\s*[:\-]?\s*(\d+)], IGNORECASE *)
Definition COURT_NUM_RE : regex :=
  seqs [istr "COURT"; Star space; istr "NO"; Opt (lit "."); Star space;
        Opt (oneof ":-"); Star space; Group 1 (Plus digit)].

(** [CHIEF\s+JUSTICE'?S\s+COURT], IGNORECASE *)
Definition CHIEF_JUSTICE_RE : regex :=
  seqs [istr "CHIEF"; Plus space; istr "JUSTICE"; Opt (lit "'"); istr "S";
        Plus space; istr "COURT"].

(** [^\s*versus\.?\s*$], IGNORECASE *)
Definition VERSUS_RE : regex :=
  seqs [Bol; Star space; istr "versus"; Opt (lit "."); Star space; Eol].

Definition IGNORE_HEAD : regex :=
  alts [istr "SUPREME COURT OF INDIA"; istr "IT WILL BE APPRECIATED";
        istr "LISTED BEFORE"; istr "DAILY CAUSE LIST"; istr "NOTE";
        istr "MISCELLANEOUS HEARING"; istr "PUBLIC INTEREST LITIGATIONS";
        seqs [istr "SNo"; lit "."; Star space; istr "Case No"; lit "."];
        istr "Petitioner/Respondent"].

(** [\bNo\.] *)
Definition NO_DOT_RE : regex := seqs [WordB; str "No"; lit "."].
(** [[IVXLC]+(-[A-Z])?] *)
Definition ROMAN_RE : regex :=
  Seq (Plus (oneof "IVXLC")) (Opt (Seq (lit "-") (Chr isupper))).
(** [[\d/().-]+] *)
Definition DIGITS_PUNCT_RE : regex :=
  Plus (Chr (fun a => isdigit a || contains_char a "/().-")).
(** [\bPIL(?:-W|\b)] *)
Definition PIL_RE : regex := seqs [WordB; str "PIL"; Alt (str "-W") WordB].
(** [IA No\.|FOR ADMISSION|EXEMPTION FROM FILING|CONDONATION OF DELAY|O\.T\.],
    IGNORECASE *)
Definition FILING_RE : regex :=
  alts [Seq (istr "IA No") (lit "."); istr "FOR ADMISSION";
        istr "EXEMPTION FROM FILING"; istr "CONDONATION OF DELAY";
        seqs [ilit "O"; lit "."; ilit "T"; lit "."]].
(** [Connected] *)
Definition CONNECTED_RE : regex := str "Connected".

Definition is_meta_line (line : string) : bool :=
  if is_match (search IGNORE_HEAD line) then true
  else if is_match (search NO_DOT_RE line) then true
  else if is_match (fullmatch ROMAN_RE line) then true
  else if is_match (fullmatch DIGITS_PUNCT_RE line) then true
  else if is_match (search PIL_RE line) then true
  else if is_match (search FILING_RE line) then true
  else if is_match (fullmatch CONNECTED_RE line) then true
  else false.


(** ** [smart_title] *)

(** [re.sub(r"\s+", " ", s)]: every maximal run of spaces becomes one
    blank.  [in_run] tells that the previous character was a space. *)
Fixpoint sub_spaces (in_run : bool) (s : string) : string :=
  match s with
  | "" => ""
  | String a s' =>
      if isspace a
      then if in_run then sub_spaces true s' else String " " (sub_spaces true s')
      else String a (sub_spaces false s')
  end.

Definition kept : gset string :=
  list_to_set ["U.P."; "NCT"; "SLP"; "S.L.P."; "IA"; "I.A."; "Ltd."; "LTD.";
               "CBI"; "GST"; "W.P.(C)"; "T.P.(C)"; "T.P.(Crl.)"].

Definition lowers : gset string :=
  list_to_set ["and"; "of"; "the"; "by"; "on"; "for"; "to"; "in"; "vs"; "vs.";
               "alias"; "@"].

(** The test that sends a word to [out] unchanged. *)
Definition keep_verbatim (w : string) : bool :=
  existsb_chars isdigit w
  || (contains_char "." w && String.eqb (upper w) w)
  || bool_decide (upper w ∈ kept).

(** The body of the loop over [enumerate(s.split())]. *)
Definition title_word (i : nat) (w : string) : string :=
  if keep_verbatim w then w
  else
    let base := lower w in
    if bool_decide (base ∈ lowers) && negb (i =? 0)%nat then base
    else capitalize base.

(** [" ".join(out)], before the final [strip]. *)
Definition title_words (s : string) : string :=
  let s := sub_spaces false (strip s) in
  join " " (imap title_word (split s)).

Definition smart_title (s : string) : string :=
  strip_chars " ,.-" (title_words s).

(** ** [int] of a string *)

Definition digit_val (a : ascii) : Z := Z.of_N (code a - 48).

(** Digits, with single underscores between digits. *)
Fixpoint int_go (acc : Z) (after_digit : bool) (s : string) : option Z :=
  match s with
  | "" => if after_digit then Some acc else None
  | String a s' =>
      if isdigit a then int_go (10 * acc + digit_val a) true s'
      else if Ascii.eqb a "_" && after_digit
      then match s' with
           | String b _ => if isdigit b then int_go acc false s' else None
           | "" => None
           end
      else None
  end.

(** [int(s)]; [None] stands for [ValueError]. *)
Definition py_int (s : string) : option Z :=
  match strip s with
  | String a t =>
      if Ascii.eqb a "-" then Z.opp <$> int_go 0 false t
      else if Ascii.eqb a "+" then int_go 0 false t
      else int_go 0 false (String a t)
  | "" => None
  end.

(** [str(n)] for an [int] *)
Definition str_int (n : Z) : string := pretty n.

(** ** Pages as the text-extraction engine supplies them *)

Record block : Type :=
  Block { b_x0 : Q; b_y0 : Q; b_x1 : Q; b_y1 : Q; b_text : string }.

Record word : Type :=
  Word { w_x0 : Q; w_y0 : Q; w_x1 : Q; w_y1 : Q; w_text : string }.

Record page : Type :=
  Page { page_text : string;          (* page.get_text("text") *)
         page_blocks : list block;    (* page.get_text("blocks") *)
         page_words : list word;      (* page.get_text("words") *)
         rect_width : Q;
         rect_height : Q }.

Abbreviation document := (list page).

Definition Qltb (x y : Q) : bool := negb (Qle_bool y x).

(** [m.group(n)] of a match object; the groups of this module's patterns
    always take part in a match. *)
Definition mgroup (n : nat) (m : mobj) : string :=
  default "" (group n (m_groups m)).

(** ** Court detection *)

(** The loop over the blocks of the header band. *)
Fixpoint scan_header_blocks (bs : list block) : option Z :=
  match bs with
  | [] => None
  | b :: bs' =>
      if Qltb 180 (b_y1 b) then None
      else if is_match (search CHIEF_JUSTICE_RE (b_text b)) then Some 1%Z
      else match search COURT_NUM_RE (b_text b) with
           | Some mm => py_int (mgroup 1 mm)
           | None => scan_header_blocks bs'
           end
  end.

Definition detect_court_number (p : page) : option Z :=
  let txt := page_text p in
  if is_match (search CHIEF_JUSTICE_RE txt) then Some 1%Z
  else match search COURT_NUM_RE txt with
       | Some m => py_int (mgroup 1 m)
       | None => scan_header_blocks (page_blocks p)
       end.

(** ** Column split *)

Definition Qmin_list (x : Q) (l : list Q) : Q :=
  foldl (fun m y => if Qltb y m then y else m) x l.
Definition Qmax_list (x : Q) (l : list Q) : Q :=
  foldl (fun m y => if Qltb m y then y else m) x l.

Definition page_split_x (p : page) : Q :=
  let words := page_words p in
  let h := rect_height p in
  let adv := filter (fun w => startswith "advocate" (lower (w_text w))
                              && Qltb (w_y0 w) (h * (35 # 100))) words in
  match w_x0 <$> adv with
  | x :: xs => Qmin_list x xs
  | [] =>
      let pr := filter (fun w => contains "petitioner/respondent" (lower (w_text w))
                                 && Qltb (w_y0 w) (h * (35 # 100))) words in
      match w_x1 <$> pr with
      | x :: xs => Qmax_list x xs + 10
      | [] => rect_width p * (70 # 100)
      end
  end.

(** ** Stable sorting by a key, as [list.sort] and [sorted] do *)

Section Sorting.
Context {A K : Type} (lt : K -> K -> bool) (key : A -> K).

(** [x] goes before the first element whose key is greater, so after
    every element it ties with. *)
Fixpoint insert_by (x : A) (l : list A) : list A :=
  match l with
  | [] => [x]
  | y :: l' => if lt (key x) (key y) then x :: y :: l' else y :: insert_by x l'
  end.

Definition sort_by (l : list A) : list A :=
  foldl (fun acc x => insert_by x acc) [] l.
End Sorting.

(** [round(x, 1)], counted in tenths: the nearest tenth, a tie going to
    the even one. *)
Definition round1 (x : Q) : Z :=
  let t := (x * 10)%Q in
  let f := Qfloor t in
  match Qcompare (t - inject_Z f) (1 # 2) with
  | Lt => f
  | Gt => (f + 1)%Z
  | Eq => if Z.even f then f else (f + 1)%Z
  end.

Definition pair_ltZ (a b : Z * Z) : bool :=
  (a.1 <? b.1)%Z || ((a.1 =? b.1)%Z && (a.2 <? b.2)%Z).

Definition block_key (b : block) : Z * Z := (round1 (b_y0 b), round1 (b_x0 b)).

(** ** [parse_pdf] *)

Record entry : Type :=
  Entry { court : option Z;
          serial : string;
          petitioner : option string;
          respondent : option string;
          page_no : nat }.

(** The list [items] holds the dictionaries; [current] refers to one of
    them by its position, so a write through [current] is seen in [items]. *)
Record pstate : Type :=
  PState { items : list entry;
           current : option nat;
           capture_resp : bool }.

Definition set_petitioner (v : string) (e : entry) : entry :=
  Entry (court e) (serial e) (Some v) (respondent e) (page_no e).
Definition set_respondent (v : string) (e : entry) : entry :=
  Entry (court e) (serial e) (petitioner e) (Some v) (page_no e).

Definition is_None {A} (o : option A) : bool :=
  match o with None => true | Some _ => false end.

(** Truth value of an optional [int]: neither [None] nor zero. *)
Definition truthy_int (o : option Z) : bool :=
  match o with Some c => negb (c =? 0)%Z | None => false end.

(** Truth value of an optional string: neither [None] nor empty. *)
Definition truthy_str (o : option string) : bool :=
  match o with Some s => truthy s | None => false end.

(** [a or b] on optional integers *)
Definition or_int (a b : option Z) : option Z :=
  if truthy_int a then a else b.

(** The part of the line loop that fills the open entry. *)
Definition fill_current (line : string) (st : pstate) : pstate :=
  match current st with
  | None => st
  | Some i =>
      match items st !! i with
      | None => st
      | Some e =>
          if is_None (petitioner e) && negb (capture_resp st)
          then PState (<[i := set_petitioner (smart_title line) e]> (items st))
                      (current st) (capture_resp st)
          else if capture_resp st && is_None (respondent e)
          then PState (<[i := set_respondent (smart_title line) e]> (items st))
                      (current st) false
          else st
      end
  end.

(** One round of [for raw in text.splitlines()]. *)
Definition step_line (crt : option Z) (pno : nat) (is_left : bool)
    (st : pstate) (raw : string) : pstate :=
  let line := strip raw in
  if negb (truthy line) then st
  else
    match (if is_left then pmatch SERIAL_RE line else None) with
    | Some m =>
        PState (items st ++ [Entry crt (mgroup 1 m) None None (pno + 1)])
               (Some (length (items st))) false
    | None =>
        if is_meta_line line then st
        else if is_match (pmatch VERSUS_RE line)
        then PState (items st) (current st) true
        else if is_left then fill_current line st
        else st
    end.

(** One round of [for (x0,y0,x1,y1,text,*_) in blocks]. *)
Definition step_block (crt : option Z) (pno : nat) (split_x : Q)
    (st : pstate) (b : block) : pstate :=
  let is_left := Qltb (b_x0 b) split_x in
  foldl (step_line crt pno is_left) st (splitlines (b_text b)).

(** What the page loop carries from page to page. *)
Record dstate : Type :=
  DState { d_items : list entry; last_court : option Z }.

(** One round of [for pno in range(doc.page_count)]. *)
Definition step_page (ds : dstate) (pno : nat) (p : page) : dstate :=
  let crt := or_int (detect_court_number p) (last_court ds) in
  let last := if truthy_int crt then crt else last_court ds in
  let split_x := page_split_x p in
  let blocks := sort_by pair_ltZ block_key (page_blocks p) in
  let st := foldl (step_block crt pno split_x)
                  (PState (d_items ds) None false) blocks in
  DState (items st) last.

(** The page loop, from page number [pno] on. *)
Fixpoint run_pages (ds : dstate) (pno : nat) (ps : list page) : dstate :=
  match ps with
  | [] => ds
  | p :: ps' => run_pages (step_page ds pno p) (S pno) ps'
  end.

Definition complete (it : entry) : bool :=
  truthy_int (court it) && truthy_str (petitioner it) && truthy_str (respondent it).

(** The state when the page loop ends. *)
Definition parse_state (doc : document) : dstate :=
  run_pages (DState [] None) 0 doc.

Definition parse_pdf (doc : document) : list entry :=
  filter (fun it => complete it = true) (d_items (parse_state doc)).

(** ** The record index *)

(** A Python [dict] with string keys: the bindings in insertion order, each
    key bound once. *)
Fixpoint dict_get {V : Type} (d : list (string * V)) (k : string) : option V :=
  match d with
  | [] => None
  | (k', v) :: d' => if String.eqb k' k then Some v else dict_get d' k
  end.

(** [k in d] *)
Definition dict_has {V : Type} (d : list (string * V)) (k : string) : bool :=
  negb (is_None (dict_get d k)).

(** [d[k] = v]: a new key goes last, a known key keeps its place. *)
Fixpoint dict_set {V : Type} (d : list (string * V)) (k : string) (v : V)
  : list (string * V) :=
  match d with
  | [] => [(k, v)]
  | (k', v') :: d' =>
      if String.eqb k' k then (k, v) :: d' else (k', v') :: dict_set d' k v
  end.

(** [d.keys()] *)
Definition dict_keys {V : Type} (d : list (string * V)) : list string := d.*1.

(** An optional value inside an f-string: [None] prints as its name. *)
Definition fmt_opt {A : Type} (f : A -> string) (o : option A) : string :=
  match o with Some x => f x | None => "None" end.

(** [f"{it['court']}/{it['serial']}"] *)
Definition entry_key (it : entry) : string :=
  fmt_opt str_int (court it) +:+ "/" +:+ serial it.

Definition build_index (its : list entry) : list (string * entry) :=
  foldl (fun idx it =>
           let key := entry_key it in
           if dict_has idx key then idx else dict_set idx key it)
        [] its.

Definition format_line (it : entry) : string :=
  fmt_opt str_int (court it) +:+ "/" +:+ serial it +:+ " - "
  +:+ fmt_opt id (petitioner it) +:+ " Vs " +:+ fmt_opt id (respondent it).

(** ** Lookups: the loop at the end of [main] and the one of [app.py] *)

(** [format_line(it) if it else f"{r} - NOT FOUND"] with [it = idx.get(r)];
    an entry is a non-empty dictionary, hence true. *)
Definition render_ref (idx : list (string * entry)) (r : string) : string :=
  match dict_get idx r with
  | Some it => format_line it
  | None => r +:+ " - NOT FOUND"
  end.

Definition lookup_lines (idx : list (string * entry)) (req : list string)
  : list string :=
  render_ref idx <$> req.

(** [[r.strip() for r in pieces if r.strip()]] *)
Definition clean_refs (pieces : list string) : list string :=
  filter (fun r => truthy r = true) (strip <$> pieces).

(** [s.replace(",", "\n")] *)
Definition commas_to_newlines (s : string) : string :=
  map_chars (fun a => if Ascii.eqb a "," then "010"%char else a) s.

(** The body of [app.py] once the button is pressed with a file and a
    non-blank text: the lines shown under "Results". *)
Definition query_refs (refs : string) : list string :=
  clean_refs (splitlines (commas_to_newlines refs)).

Definition app_lines (doc : document) (refs : string) : list string :=
  let idx := build_index (parse_pdf doc) in
  lookup_lines idx (query_refs refs).

(** ** Dump-all *)

(** [float]: the conversion of a string and the comparison [<] of its
    results.  The sort of [main] uses nothing else of floating point. *)
Class PyFloat (F : Type) : Type :=
  { float_of_str : string -> option F;   (* [None]: [ValueError] *)
    float_lt : F -> F -> bool }.

(** [<] on the tuples [(int, float)] *)
Definition tuple_lt `{PyFloat F} (a b : Z * F) : bool :=
  (a.1 <? b.1)%Z || ((a.1 =? b.1)%Z && float_lt a.2 b.2).

(** [key_fn]; [None] stands for the [ValueError] of the unpacking, of [int]
    or of [float]. *)
Definition key_fn `{PyFloat F} (k : string) : option (Z * F) :=
  match split_on "/" k with
  | [c; s] =>
      match py_int c with
      | Some ci =>
          match float_of_str s with
          | Some f => Some (ci, f)
          | None => None
          end
      | None => None
      end
  | _ => None
  end.

(** [sorted(idx.keys(), key=key_fn)] *)
Definition sorted_keys `{PyFloat F} (idx : list (string * entry))
  : option (list string) :=
  keyed ← mapM (fun k => (fun v => (v, k)) <$> key_fn k) (dict_keys idx);
  Some ((sort_by tuple_lt fst keyed).*2).

(** The lines printed by the dump-all branch; [None] when it raises. *)
Definition dump_all `{PyFloat F} (idx : list (string * entry))
  : option (list string) :=
  ks ← sorted_keys idx;
  mapM (fun k => format_line <$> dict_get idx k) ks.

(** ** [main] *)

Record args : Type :=
  Args { a_pdf : document;             (* the document behind [--pdf] *)
         a_refs : option string;        (* [--refs] *)
         a_refs_file : option string;   (* the text of the file of [--refs-file] *)
         a_dump_all : bool }.

Inductive outcome : Type :=
| Returned (printed : list string)
| SysExit (printed : list string) (status : Z)
| Raised.

(** The list [req] of [main]. *)
Definition main_req (a : args) : list string :=
  let req1 := match a_refs a with
              | Some s => if truthy s then clean_refs (split_on "," s) else []
              | None => []
              end in
  let req2 := match a_refs_file a with
              | Some t => if truthy t then clean_refs (splitlines t) else []
              | None => []
              end in
  req1 ++ req2.

Definition main `{PyFloat F} (a : args) : outcome :=
  let its := parse_pdf (a_pdf a) in
  let idx := build_index its in
  if a_dump_all a then
    match dump_all idx with
    | Some lines => Returned lines
    | None => Raised
    end
  else
    match main_req a with
    | [] => SysExit ["Provide --refs or --refs-file or use --dump-all"] 1
    | req => Returned (lookup_lines idx req)
    end.

(** An instance of [PyFloat] for worked examples: plain decimals
    [digits] or [digits.digits], with their exact values. *)
Definition exact_decimal (s : string) : option Q :=
  match split_on "." s with
  | [a] =>
      if forallb_chars isdigit a
      then n ← int_go 0 false a; Some (inject_Z n)
      else None
  | [a; b] =>
      if forallb_chars isdigit a && forallb_chars isdigit b
      then n ← int_go 0 false a; m ← int_go 0 false b;
           Some (inject_Z n + Qmake m (Pos.of_nat (10 ^ String.length b)))%Q
      else None
  | _ => None
  end.

Definition exact_float : PyFloat Q :=
  {| float_of_str := exact_decimal; float_lt := Qltb |}.

(** ** Vocabulary of the statements *)

(** [matches r p c p' c']: the pattern [r] can take the subject from the
    position [p] to [p'], turning the groups [c] into [c']. *)
Inductive matches : regex → pos → caps → pos → caps → Prop :=
| M_Eps p c : matches Eps p c p c
| M_Chr f pv a s c :
    f a = true → matches (Chr f) (Pos pv (String a s)) c (Pos (Some a) s) c
| M_Seq r1 r2 p c p1 c1 p2 c2 :
    matches r1 p c p1 c1 → matches r2 p1 c1 p2 c2 →
    matches (Seq r1 r2) p c p2 c2
| M_Alt_l r1 r2 p c p' c' : matches r1 p c p' c' → matches (Alt r1 r2) p c p' c'
| M_Alt_r r1 r2 p c p' c' : matches r2 p c p' c' → matches (Alt r1 r2) p c p' c'
| M_Star_stop r p c : matches (Star r) p c p c
| M_Star_more r p c p1 c1 p2 c2 :
    matches r p c p1 c1 →
    String.length (rest p1) < String.length (rest p) →
    matches (Star r) p1 c1 p2 c2 →
    matches (Star r) p c p2 c2
| M_Bol s c : matches Bol (Pos None s) c (Pos None s) c
| M_Eol p c : at_eol p = true → matches Eol p c p c
| M_WordB p c : at_boundary p = true → matches WordB p c p c
| M_Group n r p c p' c' :
    matches r p c p' c' →
    matches (Group n r) p c p' ((n, between_pos p p') :: c').

(** A successful run ends in its continuation, reached along a match. *)
Definition sound_for (r : regex) : Prop :=
  ∀ k p c m, run r k p c = Some m →
             ∃ p' c', matches r p c p' c' ∧ k p' c' = Some m.

(** Where a match leads to a position that the continuation accepts, the
    run succeeds (with that match or one of higher priority). *)
Definition complete_for (r : regex) : Prop :=
  ∀ k p c p' c', matches r p c p' c' → is_Some (k p' c') →
                 is_Some (run r k p c).

(** The character before the position reached after reading [s]. *)
Fixpoint last_char (s : string) (pv : option ascii) : option ascii :=
  match s with
  | "" => pv
  | String a s' => last_char s' (Some a)
  end.

(** Reading [s] takes the position [p] to [p']. *)
Definition advance (p : pos) (s : string) (p' : pos) : Prop :=
  rest p = s +:+ rest p' ∧ prev p' = last_char s (prev p).

(** The decimal sub-item: nothing, or a period and at least one digit. *)
Definition is_fraction (fr : string) : Prop :=
  fr = "" ∨ ∃ d, fr = String "." d ∧ d ≠ "" ∧ forallb_chars isdigit d = true.

(** One to three digits, then the optional sub-item. *)
Definition serial_shape (tok : string) : Prop :=
  ∃ d fr, tok = d +:+ fr ∧ forallb_chars isdigit d = true ∧
          1 ≤ String.length d ≤ 3 ∧ is_fraction fr.

(** What follows a token lets it end there: the end of the line, or a
    character that is no letter, digit or underscore. *)
Definition ends_token (after : string) : bool :=
  match after with
  | "" => true
  | String a _ => negb (isword a)
  end.

(** [line] is spaces, then the token [tok] ending at a word boundary. *)
Definition serial_prefix (line tok : string) : Prop :=
  ∃ ws after, line = ws +:+ tok +:+ after ∧
              forallb_chars isspace ws = true ∧
              serial_shape tok ∧ ends_token after = true.

Definition space_free (w : string) : Prop :=
  forallb_chars (fun a => negb (isspace a)) w = true.

(** A word as [split] yields them. *)
Definition is_token (w : string) : Prop := w ≠ "" ∧ space_free w.

(** The abbreviations of [kept] that an upper-cased word can equal. *)
Definition upper_abbreviations : list string :=
  ["U.P."; "NCT"; "SLP"; "S.L.P."; "IA"; "I.A."; "LTD."; "CBI"; "GST";
   "W.P.(C)"; "T.P.(C)"].

(** The state after a left-column line that opens the entry [tok]. *)
Definition opened (crt : option Z) (pno : nat) (st : pstate) (tok : string) : pstate :=
  PState (items st ++ [Entry crt tok None None (pno + 1)])
         (Some (length (items st))) false.

(** The number that a run of digits denotes, continuing from [acc]. *)
Fixpoint digits_value (acc : Z) (s : string) : Z :=
  match s with
  | "" => acc
  | String a s' => digits_value (10 * acc + digit_val a) s'
  end.

(** No element of [l] has a key below the key of an element before it. *)
Definition ordered_by {A K : Type} (lt : K → K → bool) (key : A → K)
    (l : list A) : Prop :=
  StronglySorted (fun x y => lt (key y) (key x) = false) l.

(** An entry made on page [pno] under the court [crt]. *)
Definition created_here (crt : option Z) (pno : nat) (e : entry) : Prop :=
  court e = crt ∧ page_no e = pno + 1 ∧ serial_shape (serial e).

(** What holds of the state of page [pno], which started from the entries
    [old] with the court [crt]: the old entries are still there, unchanged;
    the later ones are of this page; the open entry is one of the later
    ones. *)
Definition page_inv (old : list entry) (crt : option Z) (pno : nat)
    (st : pstate) : Prop :=
  ∃ k, items st = old ++ k ∧ Forall (created_here crt pno) k ∧
       match current st with
       | Some i => length old ≤ i < length (items st)
       | None => True
       end.

(** The court in force on a page. *)
Definition page_court (ds : dstate) (p : page) : option Z :=
  or_int (detect_court_number p) (last_court ds).

(** The court number most recently detected in [ps], a detection being a
    number other than zero. *)
Definition most_recent_court (ps : list page) : option Z :=
  mjoin (last (filter (fun o => truthy_int o = true) (detect_court_number <$> ps))).

(** The first entry of [its] that bears the key [k]. *)
Definition first_with_key (k : string) (its : list entry) : option entry :=
  head (filter (fun it => entry_key it = k) its).

(** ** Sample documents

    Pages 600 wide and 800 high with a header block and, below it, one
    block of lines in the left column (no header word, so the split is at
    70% of the width).  The page text is the text of the two blocks. *)

Definition nl : string := String "010" "".

Definition one_block_page (header : string) (ls : list string) : page :=
  Page (header +:+ nl +:+ join nl ls)
       [Block 40 50 300 70 header; Block 40 200 300 260 (join nl ls)]
       [] 600 800.

(** Declares court 2 and lists entry 5. *)
Definition page_court2 : page :=
  one_block_page "COURT NO. 2" ["5"; "Petitioner One"; "versus"; "Respondent One"].

(** No court marker; lists entry 6. *)
Definition page_plain : page :=
  one_block_page "" ["6"; "Petitioner Two"; "versus"; "Respondent Two"].

(** A header that reads court number zero; lists entry 7. *)
Definition page_court0 : page :=
  one_block_page "COURT NO. 0" ["7"; "Petitioner Three"; "versus"; "Respondent Three"].

(** Entry 8 gets its petitioner and a "versus", and the page ends. *)
Definition page_open_entry : page :=
  one_block_page "" ["8"; "Petitioner Four"; "versus"].

(** A page that opens with a name, before any serial number. *)
Definition page_late_name : page :=
  one_block_page ""
    ["Respondent Four"; "9"; "Petitioner Five"; "versus"; "Respondent Five"].

(** Court 2 again, with the entries 10 and 9.5 in this order. *)
Definition page_two_entries : page :=
  one_block_page "Court No: 2"
    ["10"; "Petitioner Ten"; "versus"; "Respondent Ten";
     "9.5"; "Petitioner Nine"; "versus"; "Respondent Nine"].

(** The Chief Justice's court, which is court 1; lists entry 3. *)
Definition page_chief : page :=
  one_block_page "CHIEF JUSTICE'S COURT"
    ["3"; "Petitioner Three"; "versus"; "Respondent Three"].

(** Court 2 with an entry whose parties are parted by "vs.", which is no
    "versus" line. *)
Definition page_vs : page :=
  one_block_page "COURT NO. 2" ["5"; "Petitioner One"; "vs."; "Respondent One"].


(** Two entries with the key "3/10". *)
Definition entry_10_first : entry :=
  Entry (Some 3%Z) "10" (Some "First") (Some "A") 1.
Definition entry_10_second : entry :=
  Entry (Some 3%Z) "10" (Some "Second") (Some "B") 4.

Definition entry_6 : entry :=
  Entry (Some 2%Z) "6" (Some "Petitioner Two") (Some "Respondent Two") 2.

Definition entry_5 : entry :=
  Entry (Some 2%Z) "5" (Some "Petitioner One") (Some "Respondent One") 1.
Definition entry_8 : entry :=
  Entry (Some 2%Z) "8" (Some "Petitioner Four") None 2.

Definition sample_args : args :=
  Args [page_court2; page_plain] (Some "2/5, 9/9") None false.

(** ** Vocabulary of the further properties *)

(** [t] neither begins nor ends with a character of the class [f]. *)
Definition trimmed (f : ascii → bool) (t : string) : Prop :=
  (∀ a r, t = String a r → f a = false) ∧
  (∀ r a, t = r +:+ String a "" → f a = false).

(** The characters that [smart_title] strips at both ends. *)
Definition outer_punct (a : ascii) : bool := contains_char a " ,.-".

(** [e'] is [e] with, at most, fields filled that were [None]. *)
Definition keeps_fields (e e' : entry) : Prop :=
  court e' = court e ∧ serial e' = serial e ∧ page_no e' = page_no e ∧
  (∀ v, petitioner e = Some v → petitioner e' = Some v) ∧
  (∀ v, respondent e = Some v → respondent e' = Some v).

(** The entries of [its] are still in [its'], at their places, with at
    most some empty fields filled. *)
Definition entries_kept_in (its its' : list entry) : Prop :=
  ∀ i e, its !! i = Some e → ∃ e', its' !! i = Some e' ∧ keeps_fields e e'.

(** The names of [e], where set, are results of [smart_title]. *)
Definition names_normalised (e : entry) : Prop :=
  (∀ v, petitioner e = Some v → ∃ line, v = smart_title line) ∧
  (∀ v, respondent e = Some v → ∃ line, v = smart_title line).

(** No character of [s] is a line boundary of [splitlines]. *)
Definition one_line (s : string) : Prop :=
  forallb_chars (fun a => negb (islinebreak a)) s = true.

(** The characters of the pattern [[\d/().-]+]. *)
Definition digit_or_punct (a : ascii) : bool :=
  isdigit a || contains_char a "/().-".

(** The headings of [IGNORE_HEAD] that are plain phrases. *)
Definition heading_phrases : list string :=
  ["SUPREME COURT OF INDIA"; "IT WILL BE APPRECIATED"; "LISTED BEFORE";
   "DAILY CAUSE LIST"; "NOTE"; "MISCELLANEOUS HEARING";
   "PUBLIC INTEREST LITIGATIONS"; "Petitioner/Respondent"].


(** A reference as both front ends look it up: not empty, no white space
    at either end. *)
Definition clean_ref (r : string) : Prop :=
  r ≠ "" ∧ strip r = r ∧ trimmed isspace r.

(** [line] is the word "versus" in any letter case, with or without a
    period, between white space. *)
Definition versus_shape (line : string) : Prop :=
  ∃ ws1 w dot ws2, line = ws1 +:+ w +:+ dot +:+ ws2 ∧
                   forallb_chars isspace ws1 = true ∧ lower w = "versus" ∧
                   (dot = "" ∨ dot = ".") ∧ forallb_chars isspace ws2 = true.

(** No line of the page is a "versus" line. *)
Definition no_versus_line (p : page) : Prop :=
  ∀ b raw, b ∈ page_blocks p → raw ∈ splitlines (b_text b) →
           is_match (pmatch VERSUS_RE (strip raw)) = false.

(** No respondent is recorded and none is awaited. *)
Definition no_respondent (st : pstate) : Prop :=
  capture_resp st = false ∧ Forall (fun e => respondent e = None) (items st).

(** One or more of the letters I, V, X, L, C, then nothing or a hyphen
    and one capital letter: the pattern [[IVXLC]+(-[A-Z])?]. *)
Definition roman_shape (s : string) : Prop :=
  ∃ r suffix, s = r +:+ suffix ∧ r ≠ "" ∧
              forallb_chars (fun a => contains_char a "IVXLC") r = true ∧
              (suffix = "" ∨
               ∃ a, isupper a = true ∧ suffix = String "-" (String a "")).

(** An entry without court, for the examples. *)
Definition entry_no_court : entry := Entry None "4" (Some "A") (Some "B") 1.

(** * Properties *)

(** ** Facts about the string methods *)

Ltac by_cases_on_char a :=
  destruct a as [[] [] [] [] [] [] [] []]; vm_compute; reflexivity.

Lemma lower_char_idem a : lower_char (lower_char a) = lower_char a.
Proof. by_cases_on_char a. Qed.

Lemma lower_upper_char a : lower_char (upper_char a) = lower_char a.
Proof. by_cases_on_char a. Qed.

Lemma isspace_lower_char a : isspace (lower_char a) = isspace a.
Proof. by_cases_on_char a. Qed.

Lemma isspace_upper_char a : isspace (upper_char a) = isspace a.
Proof. by_cases_on_char a. Qed.

Lemma sapp_nil_l s : "" +:+ s = s.
Proof. reflexivity. Qed.

Lemma sapp_cons a s t : String a s +:+ t = String a (s +:+ t).
Proof. reflexivity. Qed.

(** Unfold the string appends whose first argument is a constructor. *)
Ltac ssimpl := rewrite ?sapp_cons, ?sapp_nil_l; simpl; rewrite ?sapp_cons, ?sapp_nil_l.

Lemma sapp_nil_r s : s +:+ "" = s.
Proof. induction s as [|a s IH]; ssimpl; [done|by f_equal]. Qed.

Lemma sapp_assoc s t u : (s +:+ t) +:+ u = s +:+ (t +:+ u).
Proof. induction s as [|a s IH]; ssimpl; [done|by f_equal]. Qed.

Lemma sapp_length s t :
  String.length (s +:+ t) = String.length s + String.length t.
Proof. induction s as [|a s IH]; ssimpl; [done|by f_equal]. Qed.

Lemma snoc_app s a t : snoc s a +:+ t = s +:+ String a t.
Proof. unfold snoc. by rewrite sapp_assoc. Qed.

Lemma map_chars_compose f g h s :
  (∀ a, f (g a) = h a) → map_chars f (map_chars g s) = map_chars h s.
Proof. intros Hfg. induction s as [|a s IH]; simpl; [done|by f_equal]. Qed.

Lemma lower_idem s : lower (lower s) = lower s.
Proof. apply map_chars_compose, lower_char_idem. Qed.

Lemma lower_capitalize_lower s : lower (capitalize (lower s)) = lower s.
Proof.
  destruct s as [|a s]; [done|]. unfold lower, capitalize. simpl.
  rewrite lower_upper_char, lower_char_idem. f_equal.
  change (lower (lower (lower s)) = lower s). by rewrite !lower_idem.
Qed.

Lemma forallb_chars_app f s t :
  forallb_chars f (s +:+ t) = forallb_chars f s && forallb_chars f t.
Proof.
  induction s as [|a s IH]; [done|]. rewrite sapp_cons. simpl.
  by rewrite IH, andb_assoc.
Qed.

Lemma forallb_chars_map f g s :
  (∀ a, f (g a) = f a) → forallb_chars f (map_chars g s) = forallb_chars f s.
Proof. intros Hfg. induction s as [|a s IH]; simpl; [done|by f_equal]. Qed.

Lemma srev_app s t : srev (s +:+ t) = srev t +:+ srev s.
Proof.
  induction s as [|a s IH]; [by rewrite sapp_nil_r|].
  rewrite sapp_cons. simpl. unfold snoc. by rewrite IH, sapp_assoc.
Qed.

Lemma srev_involutive s : srev (srev s) = s.
Proof.
  induction s as [|a s IH]; simpl; [done|].
  unfold snoc. by rewrite srev_app, IH.
Qed.

Lemma forallb_chars_srev f s : forallb_chars f (srev s) = forallb_chars f s.
Proof.
  induction s as [|a s IH]; simpl; [done|].
  unfold snoc. rewrite forallb_chars_app, IH. simpl.
  by rewrite andb_true_r, andb_comm.
Qed.

(** What [lstrip] and [rstrip] remove. *)
Lemma lstrip_by_spec f s :
  ∃ t, s = t +:+ lstrip_by f s ∧ forallb_chars f t = true.
Proof.
  induction s as [|a s (t & Ht & Hf)]; [by exists ""|]. simpl.
  destruct (f a) eqn:Ha.
  - exists (String a t). rewrite sapp_cons, <-Ht. simpl. by rewrite Ha, Hf.
  - by exists "".
Qed.

Lemma rstrip_by_spec f s :
  ∃ t, s = rstrip_by f s +:+ t ∧ forallb_chars f t = true.
Proof.
  unfold rstrip_by. destruct (lstrip_by_spec f (srev s)) as (t & Ht & Hf).
  exists (srev t). split; [|by rewrite forallb_chars_srev].
  rewrite <-srev_app, <-Ht. by rewrite srev_involutive.
Qed.

(** *** [split] *)

Lemma space_free_snoc tok a :
  space_free tok → isspace a = false → space_free (snoc tok a).
Proof.
  unfold space_free, snoc. intros Ht Ha.
  rewrite forallb_chars_app, Ht. simpl. by rewrite Ha.
Qed.

Lemma split_go_tokens tok s :
  space_free tok → Forall is_token (split_go tok s).
Proof.
  revert tok. induction s as [|a s IH]; intros tok Htok; simpl.
  - destruct tok; [done|]. by repeat constructor.
  - destruct (isspace a) eqn:Ha.
    + destruct tok; [by apply IH|]. constructor; [done|by apply IH].
    + by apply IH, space_free_snoc.
Qed.

Lemma split_tokens s : Forall is_token (split s).
Proof. by apply split_go_tokens. Qed.

(** Leading spaces, trailing spaces and the length of the runs of spaces
    do not matter to [split]. *)
Lemma split_go_spaces_r tok s t :
  forallb_chars isspace t = true → split_go tok (s +:+ t) = split_go tok s.
Proof.
  intros Ht. revert tok. induction s as [|a s IH]; intros tok; simpl.
  - revert tok. induction t as [|b t IHt]; intros tok; [done|].
    simpl in *. apply andb_true_iff in Ht as [Hb Ht]. rewrite Hb.
    destruct tok; rewrite (IHt Ht); done.
  - destruct (isspace a); [|apply IH]. destruct tok; by rewrite IH.
Qed.

Lemma split_spaces_l t s :
  forallb_chars isspace t = true → split (t +:+ s) = split s.
Proof.
  unfold split. induction t as [|b t IH]; intros Ht; [done|].
  simpl in *. apply andb_true_iff in Ht as [Hb Ht]. rewrite Hb. by apply IH.
Qed.

Lemma split_strip s : split (strip s) = split s.
Proof.
  unfold strip, strip_by.
  destruct (lstrip_by_spec isspace s) as (t & Ht & Hf).
  destruct (rstrip_by_spec isspace (lstrip_by isspace s)) as (u & Hu & Hg).
  rewrite Ht at 2. rewrite (split_spaces_l _ _ Hf).
  rewrite Hu at 2. unfold split. by rewrite split_go_spaces_r.
Qed.

Lemma split_go_sub_spaces tok b s :
  (b = true → tok = "") →
  split_go tok (sub_spaces b s) = split_go tok s.
Proof.
  revert tok b. induction s as [|a s IH]; intros tok b Hb; [done|]. simpl.
  destruct (isspace a) eqn:Ha.
  - destruct b.
    + rewrite (Hb eq_refl). by apply IH.
    + simpl. destruct tok; by rewrite IH.
  - simpl. rewrite Ha. by apply IH.
Qed.

Lemma split_go_word w tok s :
  space_free w → split_go tok (w +:+ s) = split_go (tok +:+ w) s.
Proof.
  revert tok. induction w as [|a w IH]; intros tok Hw; simpl.
  - by rewrite sapp_nil_r.
  - unfold space_free in Hw. simpl in Hw. apply andb_true_iff in Hw as [Ha Hw].
    apply negb_true_iff in Ha. rewrite Ha, (IH _ Hw). by rewrite snoc_app.
Qed.

Lemma split_join ws : Forall is_token ws → split (join " " ws) = ws.
Proof.
  unfold split. induction 1 as [|w ws [Hne Hw] Hws IH]; [done|].
  destruct ws as [|w' ws].
  - simpl. rewrite <-(sapp_nil_r w) at 1. rewrite split_go_word by done.
    rewrite sapp_nil_l. simpl. by destruct w.
  - change (join " " (w :: w' :: ws)) with (w +:+ " " +:+ join " " (w' :: ws)).
    rewrite split_go_word by done. rewrite sapp_nil_l.
    change (" " +:+ join " " (w' :: ws)) with (String " " (join " " (w' :: ws))).
    destruct w; [done|]. simpl in IH |- *. by rewrite IH.
Qed.

(** *** [title_word] *)

Lemma is_token_lower w : is_token w → is_token (lower w).
Proof.
  intros [Hne Hw]. split; [by destruct w|].
  unfold space_free, lower. rewrite forallb_chars_map; [done|].
  intros a. by rewrite isspace_lower_char.
Qed.

Lemma is_token_capitalize w : is_token w → is_token (capitalize w).
Proof.
  intros [Hne Hw]. destruct w as [|a w]; [done|]. split; [done|].
  unfold space_free in *. simpl in *. rewrite isspace_upper_char.
  apply andb_true_iff in Hw as [-> Hw]. simpl.
  unfold lower. rewrite forallb_chars_map; [done|].
  intros b. by rewrite isspace_lower_char.
Qed.

Lemma is_token_title_word i w : is_token w → is_token (title_word i w).
Proof.
  intros Hw. unfold title_word. repeat case_match; [done| |].
  - by apply is_token_lower.
  - by apply is_token_capitalize, is_token_lower.
Qed.

(** Re-casing a word that the loop has produced, at the same position,
    changes nothing. *)
Lemma title_word_idem i w : title_word i (title_word i w) = title_word i w.
Proof.
  destruct (keep_verbatim w) eqn:Hk.
  { assert (title_word i w = w) as -> by (unfold title_word; by rewrite Hk).
    unfold title_word. by rewrite Hk. }
  destruct (bool_decide (lower w ∈ lowers) && negb (i =? 0)%nat) eqn:Hl.
  - assert (title_word i w = lower w) as ->
      by (unfold title_word; by rewrite Hk, Hl).
    unfold title_word.
    destruct (keep_verbatim (lower w)); [done|]. by rewrite lower_idem, Hl.
  - assert (title_word i w = capitalize (lower w)) as ->
      by (unfold title_word; by rewrite Hk, Hl).
    unfold title_word.
    destruct (keep_verbatim (capitalize (lower w))); [done|].
    by rewrite lower_capitalize_lower, Hl.
Qed.

Lemma imap_title_word_idem ws :
  imap title_word (imap title_word ws) = imap title_word ws.
Proof.
  apply list_eq. intros i. rewrite !list_lookup_imap.
  destruct (ws !! i) as [w|]; simpl; [|done]. by rewrite title_word_idem.
Qed.

Lemma imap_title_word_tokens ws :
  Forall is_token ws → Forall is_token (imap title_word ws).
Proof.
  rewrite !Forall_lookup. intros Hws i w.
  rewrite list_lookup_imap_Some. intros (w0 & Hw0 & ->).
  apply is_token_title_word. by eapply Hws.
Qed.

Lemma split_normalised s : split (sub_spaces false (strip s)) = split s.
Proof. unfold split. rewrite split_go_sub_spaces by done. apply split_strip. Qed.

(** ** The matcher against a declarative reading of the patterns *)

Section MatcherCorrect.

Lemma star_loop_sound r :
  sound_for r →
  ∀ fuel k p c m, star_loop (run r) fuel k p c = Some m →
                  ∃ p' c', matches (Star r) p c p' c' ∧ k p' c' = Some m.
Proof.
  intros Hr. induction fuel as [|fuel IH]; intros k p c m; simpl.
  { intros Hk. exists p, c. split; [constructor|done]. }
  destruct (run r _ p c) as [m0|] eqn:Hm0.
  - intros [= ->]. apply Hr in Hm0 as (p1 & c1 & Hm1 & Hk1).
    destruct (String.length (rest p1) <? String.length (rest p))%nat eqn:Hlt;
      [|done].
    apply Nat.ltb_lt in Hlt.
    apply IH in Hk1 as (p2 & c2 & Hm2 & Hk2).
    exists p2, c2. split; [|done]. by eapply M_Star_more.
  - intros Hk. exists p, c. split; [constructor|done].
Qed.

Lemma run_sound r : sound_for r.
Proof.
  induction r as [|f|r1 IH1 r2 IH2|r1 IH1 r2 IH2|r IH| | | |n r IH];
    intros k p c m; simpl.
  - intros Hk. exists p, c. split; [constructor|done].
  - destruct p as [pv [|a s]]; simpl; [done|].
    destruct (f a) eqn:Hf; [|done]. intros Hk.
    exists (Pos (Some a) s), c. split; [by constructor|done].
  - intros (p1 & c1 & Hm1 & Hk1)%IH1. apply IH2 in Hk1 as (p2 & c2 & Hm2 & Hk2).
    exists p2, c2. split; [by econstructor|done].
  - destruct (run r1 k p c) as [m1|] eqn:H1.
    + intros [= ->]. apply IH1 in H1 as (p' & c' & Hm & Hk).
      exists p', c'. split; [by apply M_Alt_l|done].
    + intros (p' & c' & Hm & Hk)%IH2.
      exists p', c'. split; [by apply M_Alt_r|done].
  - by apply star_loop_sound.
  - destruct p as [[a|] s]; simpl; [done|]. intros Hk.
    exists (Pos None s), c. split; [constructor|done].
  - destruct (at_eol p) eqn:He; [|done]. intros Hk.
    exists p, c. split; [by constructor|done].
  - destruct (at_boundary p) eqn:He; [|done]. intros Hk.
    exists p, c. split; [by constructor|done].
  - intros (p' & c' & Hm & Hk)%IH. eexists _, _. split; [by constructor|done].
Qed.

Lemma star_loop_complete r :
  complete_for r →
  ∀ fuel k p c p' c',
    String.length (rest p) ≤ fuel →
    matches (Star r) p c p' c' → is_Some (k p' c') →
    is_Some (star_loop (run r) fuel k p c).
Proof.
  intros Hr. induction fuel as [|fuel IH]; intros k p c p' c' Hfuel Hm Hk.
  - inversion Hm; subst; [done|lia].
  - simpl. destruct (run r _ p c) as [m0|] eqn:Hm0; [done|].
    inversion Hm as [| | | | |? ? ?|? ? ? p1 c1 ? ? Hm1 Hlt Hm2| | | |]; subst; [done|].
    assert (is_Some (run r (fun p' c' =>
               if (String.length (rest p') <? String.length (rest p))%nat
               then star_loop (run r) fuel k p' c' else None) p c)) as [? Hsome].
    { eapply Hr; [exact Hm1|]. simpl.
      rewrite (proj2 (Nat.ltb_lt _ _) Hlt). eapply IH; [lia|done..]. }
    congruence.
Qed.

Lemma run_complete r : complete_for r.
Proof.
  induction r as [|f|r1 IH1 r2 IH2|r1 IH1 r2 IH2|r IH| | | |n r IH];
    intros k p c p' c' Hm Hk; inversion Hm; subst; simpl.
  - done.
  - by rewrite H0.
  - eapply IH1; [done|]. by eapply IH2.
  - destruct (run r1 k p c) eqn:H1; [done|].
    destruct (IH1 k p c p' c') as [? ?]; [done..|congruence].
  - destruct (run r1 k p c) eqn:H1; [done|]. by eapply IH2.
  - by eapply (star_loop_complete r IH); [|apply M_Star_stop|].
  - by eapply (star_loop_complete r IH).
  - done.
  - by rewrite H.
  - by rewrite H.
  - by eapply IH.
Qed.

End MatcherCorrect.

(** ** The serial pattern, read declaratively *)

Lemma last_char_app s t pv : last_char (s +:+ t) pv = last_char t (last_char s pv).
Proof.
  revert pv. induction s as [|a s IH]; intros pv; [done|].
  rewrite sapp_cons. simpl. apply IH.
Qed.

Lemma advance_refl p : advance p "" p.
Proof. by split. Qed.

Lemma advance_trans p s p1 t p2 :
  advance p s p1 → advance p1 t p2 → advance p (s +:+ t) p2.
Proof.
  intros [Hs Hp] [Ht Hq]. split.
  - by rewrite Hs, Ht, sapp_assoc.
  - by rewrite Hq, Hp, last_char_app.
Qed.

Lemma advance_pos pv s r : advance (Pos pv (s +:+ r)) s (Pos (last_char s pv) r).
Proof. by split. Qed.

Lemma first_n_app s r : first_n (String.length s) (s +:+ r) = s.
Proof.
  induction s as [|a s IH]; [by destruct r|].
  rewrite sapp_cons. simpl. by rewrite IH.
Qed.

Lemma between_pos_advance p s p' : advance p s p' → between_pos p p' = s.
Proof.
  intros [Hs _]. unfold between_pos. rewrite Hs, sapp_length.
  replace (String.length s + String.length (rest p') - String.length (rest p'))
    with (String.length s) by lia.
  apply first_n_app.
Qed.

Lemma matches_chr_inv f p c p' c' :
  matches (Chr f) p c p' c' →
  ∃ a, f a = true ∧ advance p (String a "") p' ∧ c' = c.
Proof. inversion 1; subst. exists a. by repeat split. Qed.

Lemma matches_star_chr_inv f p c p' c' :
  matches (Star (Chr f)) p c p' c' →
  ∃ s, forallb_chars f s = true ∧ advance p s p' ∧ c' = c.
Proof.
  intros Hm. remember (Star (Chr f)) as r eqn:Hr.
  induction Hm as [| | | | |r p c|r p c p1 c1 p2 c2 Hm1 _ Hlt Hm2 IH| | | |];
    try discriminate; injection Hr as ->.
  - exists "". by repeat split.
  - apply matches_chr_inv in Hm1 as (a & Ha & Hadv & ->).
    destruct (IH eq_refl) as (s & Hs & Hadv' & ->).
    exists (String a s). split; [simpl; by rewrite Ha|].
    split; [|done]. by apply (advance_trans _ _ _ _ _ Hadv Hadv').
Qed.

Lemma matches_star_chr f s pv r c :
  forallb_chars f s = true →
  matches (Star (Chr f)) (Pos pv (s +:+ r)) c (Pos (last_char s pv) r) c.
Proof.
  revert pv. induction s as [|a s IH]; intros pv Hs; [constructor|].
  simpl in Hs. apply andb_true_iff in Hs as [Ha Hs].
  rewrite sapp_cons. eapply M_Star_more; [by constructor| |by apply IH].
  simpl. lia.
Qed.

Lemma matches_exactly_chr_inv f n p c p' c' :
  matches (exactly n (Chr f)) p c p' c' →
  ∃ s, forallb_chars f s = true ∧ String.length s = n ∧ advance p s p' ∧ c' = c.
Proof.
  revert p. induction n as [|n IH]; intros p; simpl; intros Hm.
  - inversion Hm; subst. exists "". by repeat split.
  - inversion Hm as [| |? ? ? ? p1 c1 ? ? H1 H2| | | | | | | |]; subst.
    apply matches_chr_inv in H1 as (a & Ha & Hadv & ->).
    apply IH in H2 as (s & Hs & Hlen & Hadv' & ->).
    exists (String a s). simpl. rewrite Ha, Hs, Hlen.
    split; [done|]. split; [done|]. split; [|done].
    exact (advance_trans _ _ _ _ _ Hadv Hadv').
Qed.

Lemma matches_upto_chr_inv f n p c p' c' :
  matches (upto n (Chr f)) p c p' c' →
  ∃ s, forallb_chars f s = true ∧ String.length s ≤ n ∧ advance p s p' ∧ c' = c.
Proof.
  revert p. induction n as [|n IH]; intros p; simpl; intros Hm.
  - inversion Hm; subst. exists "". by repeat split.
  - inversion Hm as [| | |? ? ? ? ? ? Hl|? ? ? ? ? ? Hr| | | | | |]; subst.
    + inversion Hl as [| |? ? ? ? p1 c1 ? ? H1 H2| | | | | | | |]; subst.
      apply matches_chr_inv in H1 as (a & Ha & Hadv & ->).
      apply IH in H2 as (s & Hs & Hlen & Hadv' & ->).
      exists (String a s). simpl. rewrite Ha, Hs.
      split; [done|]. split; [lia|]. split; [|done].
      exact (advance_trans _ _ _ _ _ Hadv Hadv').
    + inversion Hr; subst. exists "". repeat split; simpl; lia.
Qed.

Lemma matches_exactly_chr f s pv r c :
  forallb_chars f s = true →
  matches (exactly (String.length s) (Chr f))
          (Pos pv (s +:+ r)) c (Pos (last_char s pv) r) c.
Proof.
  revert pv. induction s as [|a s IH]; intros pv Hs; simpl; [constructor|].
  simpl in Hs. apply andb_true_iff in Hs as [Ha Hs].
  rewrite sapp_cons. eapply M_Seq; [by constructor|by apply (IH (Some a))].
Qed.

Lemma matches_upto_chr f n s pv r c :
  forallb_chars f s = true → String.length s ≤ n →
  matches (upto n (Chr f)) (Pos pv (s +:+ r)) c (Pos (last_char s pv) r) c.
Proof.
  revert pv s. induction n as [|n IH]; intros pv s Hs Hlen; simpl.
  - destruct s; simpl in Hlen; [constructor|lia].
  - destruct s as [|a s]; [apply M_Alt_r; constructor|].
    simpl in Hs, Hlen. apply andb_true_iff in Hs as [Ha Hs].
    apply M_Alt_l. rewrite sapp_cons.
    eapply M_Seq; [by constructor|]. apply (IH (Some a) s); [done|lia].
Qed.

(** A string cut after its first [n] characters. *)
Lemma string_cut n s :
  n ≤ String.length s →
  ∃ s1 s2, s = s1 +:+ s2 ∧ String.length s1 = n.
Proof.
  revert s. induction n as [|n IH]; intros s Hn; [by exists "", s|].
  destruct s as [|a s]; simpl in Hn; [lia|].
  destruct (IH s) as (s1 & s2 & -> & Hlen); [lia|].
  exists (String a s1), s2. simpl. by rewrite Hlen.
Qed.

Lemma matches_rep_chr_inv f lo hi p c p' c' :
  matches (Rep lo hi (Chr f)) p c p' c' →
  ∃ s, forallb_chars f s = true ∧ lo ≤ String.length s ≤ lo + (hi - lo) ∧
       advance p s p' ∧ c' = c.
Proof.
  unfold Rep. intros Hm.
  inversion Hm as [| |? ? ? ? p1 c1 ? ? H1 H2| | | | | | | |]; subst.
  apply matches_exactly_chr_inv in H1 as (s1 & Hs1 & Hlen1 & Hadv1 & ->).
  apply matches_upto_chr_inv in H2 as (s2 & Hs2 & Hlen2 & Hadv2 & ->).
  exists (s1 +:+ s2). rewrite forallb_chars_app, Hs1, Hs2, sapp_length.
  split; [done|]. split; [lia|]. split; [|done].
  exact (advance_trans _ _ _ _ _ Hadv1 Hadv2).
Qed.

Lemma matches_rep_chr f lo hi s pv r c :
  forallb_chars f s = true → lo ≤ String.length s ≤ hi →
  matches (Rep lo hi (Chr f)) (Pos pv (s +:+ r)) c (Pos (last_char s pv) r) c.
Proof.
  intros Hs Hlen. destruct (string_cut lo s) as (s1 & s2 & -> & Hlen1); [lia|].
  rewrite forallb_chars_app in Hs. apply andb_true_iff in Hs as [Hs1 Hs2].
  rewrite sapp_length in Hlen. unfold Rep.
  rewrite sapp_assoc, last_char_app. subst lo.
  eapply M_Seq; [by apply matches_exactly_chr|].
  apply matches_upto_chr; [done|lia].
Qed.

Lemma matches_digits_inv p c p' c' :
  matches (Rep 1 3 digit) p c p' c' →
  ∃ d, forallb_chars isdigit d = true ∧ 1 ≤ String.length d ≤ 3 ∧
       advance p d p' ∧ c' = c.
Proof. apply matches_rep_chr_inv. Qed.

Lemma matches_digits d pv r c :
  forallb_chars isdigit d = true → 1 ≤ String.length d ≤ 3 →
  matches (Rep 1 3 digit) (Pos pv (d +:+ r)) c (Pos (last_char d pv) r) c.
Proof. apply matches_rep_chr. Qed.

Lemma matches_fraction_inv p c p' c' :
  matches (Opt (Seq (lit ".") (Plus digit))) p c p' c' →
  ∃ fr, is_fraction fr ∧ advance p fr p' ∧ c' = c.
Proof.
  cbv [Opt Plus lit digit]. intros Hm.
  inversion Hm as [| | |? ? ? ? ? ? Hl|? ? ? ? ? ? Hr| | | | | |]; subst.
  - inversion Hl as [| |? ? ? ? p1 c1 ? ? Hdot Hds| | | | | | | |]; subst.
    inversion Hds as [| |? ? ? ? p2 c2 ? ? Hd1 Hdr| | | | | | | |]; subst.
    apply matches_chr_inv in Hdot as (a & Ha & Hadv & ->).
    apply Ascii.eqb_eq in Ha as <-.
    apply matches_chr_inv in Hd1 as (b & Hb & Hadv1 & ->).
    apply matches_star_chr_inv in Hdr as (s & Hs & Hadv2 & ->).
    exists (String "." (String b s)). split; [|split; [|done]].
    + right. exists (String b s). split; [done|]. split; [done|].
      simpl. by rewrite Hb.
    + apply (advance_trans _ _ _ _ _ Hadv).
      apply (advance_trans _ _ _ _ _ Hadv1 Hadv2).
  - inversion Hr; subst. exists "". split; [by left|]. by split.
Qed.

Lemma matches_fraction fr pv r c :
  is_fraction fr →
  matches (Opt (Seq (lit ".") (Plus digit)))
          (Pos pv (fr +:+ r)) c (Pos (last_char fr pv) r) c.
Proof.
  intros [->|(d & -> & Hne & Hd)]; [apply M_Alt_r; constructor|].
  destruct d as [|b d]; [done|]. simpl in Hd.
  apply andb_true_iff in Hd as [Hb Hd].
  apply M_Alt_l. rewrite !sapp_cons.
  eapply M_Seq; [constructor; apply Ascii.eqb_refl|].
  eapply M_Seq; [by constructor|].
  exact (matches_star_chr isdigit d (Some b) r c Hd).
Qed.

Lemma isdigit_isword a : isdigit a = true → isword a = true.
Proof. unfold isword. intros ->. by rewrite orb_true_r. Qed.

Lemma last_char_digits d pv :
  d ≠ "" → forallb_chars isdigit d = true → is_word_opt (last_char d pv) = true.
Proof.
  revert pv. induction d as [|a d IH]; intros pv Hne Hd; [done|].
  simpl in *. apply andb_true_iff in Hd as [Ha Hd].
  destruct d as [|b d]; [by apply isdigit_isword|]. by apply IH.
Qed.

(** A token of the serial shape ends in a digit. *)
Lemma last_char_serial tok pv :
  serial_shape tok → is_word_opt (last_char tok pv) = true.
Proof.
  intros (d & fr & -> & Hd & Hlen & Hfr). rewrite last_char_app.
  destruct Hfr as [->|(d2 & -> & Hne & Hd2)].
  - simpl. apply last_char_digits; [|done]. destruct d; simpl in *; [lia|done].
  - simpl. by apply last_char_digits.
Qed.

Lemma boundary_after_token tok pv after :
  serial_shape tok →
  at_boundary (Pos (last_char tok pv) after) = ends_token after.
Proof.
  intros Htok. unfold at_boundary, next_char. simpl.
  rewrite (last_char_serial _ _ Htok). by destruct after.
Qed.

(** The serial pattern matches a line exactly along a serial prefix, and
    its group holds the token. *)
Lemma serial_match_sound line m :
  pmatch SERIAL_RE line = Some m → serial_prefix line (mgroup 1 m).
Proof.
  unfold pmatch. intros (p' & c' & Hm & Hacc)%run_sound.
  injection Hacc as <-. cbv [SERIAL_RE seqs] in Hm.
  inversion Hm as [| |? ? ? ? p0 c0 ? ? Hbol Hm1| | | | | | | |]; subst.
  inversion Hbol; subst.
  inversion Hm1 as [| |? ? ? ? p1 c1 ? ? Hsp Hm2| | | | | | | |]; subst.
  apply matches_star_chr_inv in Hsp as (ws & Hws & Hadv & ->).
  inversion Hm2 as [| |? ? ? ? p2 c2 ? ? Hgrp Hwb| | | | | | | |]; subst.
  inversion Hwb as [| | | | | | | | |? ? Hb|]; subst.
  inversion Hgrp as [| | | | | | | | | |? ? ? ? ? c3 Hg]; subst.
  inversion Hg as [| |? ? ? ? p3 c4 ? ? Hdig Hfr| | | | | | | |]; subst.
  apply matches_digits_inv in Hdig as (d & Hd & Hlen & Hadv1 & ->).
  apply matches_fraction_inv in Hfr as (fr & Hfrac & Hadv2 & ->).
  pose proof (advance_trans _ _ _ _ _ Hadv1 Hadv2) as Hadv12.
  assert (Hshape : serial_shape (d +:+ fr)) by (by exists d, fr).
  unfold mgroup. simpl. rewrite (between_pos_advance _ _ _ Hadv12).
  exists ws, (rest p'). split; [|split; [done|split; [done|]]].
  - destruct Hadv as [Hl _]. simpl in Hl. rewrite Hl.
    destruct Hadv12 as [-> _]. by rewrite sapp_assoc.
  - destruct p' as [pv' after]. destruct Hadv12 as [_ Hpv]. simpl in *. subst pv'.
    by rewrite boundary_after_token in Hb.
Qed.

Lemma serial_match_complete line tok :
  serial_prefix line tok → is_Some (pmatch SERIAL_RE line).
Proof.
  intros (ws & after & -> & Hws & Hshape & Hend).
  pose proof Hshape as (d & fr & -> & Hd & Hlen & Hfr).
  unfold pmatch.
  eapply (run_complete SERIAL_RE accept _ _
            (Pos (last_char (d +:+ fr) (last_char ws None)) after)); [|done].
  cbv [SERIAL_RE seqs].
  eapply M_Seq; [constructor|].
  eapply M_Seq; [by apply matches_star_chr|].
  eapply M_Seq; [|constructor; by rewrite boundary_after_token].
  constructor. rewrite sapp_assoc, last_char_app.
  eapply M_Seq; [by apply matches_digits|by apply matches_fraction].
Qed.

(** ** The page loop only appends, and writes only to entries of its own page *)

Section PageInvariant.
Variables (old : list entry) (crt : option Z) (pno : nat).

Local Abbreviation created_here := (created_here crt pno).
Local Abbreviation page_inv := (page_inv old crt pno).

Lemma page_inv_start : page_inv (PState old None false).
Proof. exists []. by rewrite app_nil_r. Qed.

Lemma page_inv_fill line st : page_inv st → page_inv (fill_current line st).
Proof.
  intros (k & Hk & Hall & Hc). unfold fill_current.
  destruct (current st) as [i|] eqn:Hi; [|by exists k; rewrite Hi].
  destruct (items st !! i) as [e|] eqn:He; [|by exists k; rewrite Hi].
  assert (Hins : ∀ x, <[i:=x]> (items st) = old ++ <[i - length old := x]> k).
  { intros x. rewrite Hk. by rewrite insert_app_r_alt by lia. }
  assert (Hek : created_here e).
  { rewrite Hk, lookup_app_r in He by lia.
    by eapply (proj1 (Forall_lookup _ _) Hall). }
  destruct (is_None (petitioner e) && negb (capture_resp st)).
  { eexists. simpl. rewrite ?Hi, length_insert. split; [apply Hins|split; [|done]].
    apply Forall_insert; [done|]. destruct Hek as (? & ? & ?). by split_and!. }
  destruct (capture_resp st && is_None (respondent e)).
  { eexists. simpl. rewrite ?Hi, length_insert. split; [apply Hins|split; [|done]].
    apply Forall_insert; [done|]. destruct Hek as (? & ? & ?). by split_and!. }
  exists k. by rewrite Hi.
Qed.

Lemma page_inv_line is_left st raw :
  page_inv st → page_inv (step_line crt pno is_left st raw).
Proof.
  intros Hst. unfold step_line.
  destruct (negb (truthy (strip raw))); [done|].
  destruct (if is_left then pmatch SERIAL_RE (strip raw) else None)
    as [m|] eqn:Hm.
  - destruct Hst as (k & Hk & Hall & _).
    exists (k ++ [Entry crt (mgroup 1 m) None None (pno + 1)]). simpl.
    split; [|split].
    + by rewrite Hk, <-(assoc_L (++)).
    + apply Forall_app. split; [done|]. apply Forall_singleton.
      split_and!; [done..|]. simpl.
      destruct is_left; [|done].
      by apply serial_match_sound in Hm as (ws & after & _ & _ & Hshape & _).
    + rewrite Hk, !length_app. simpl. lia.
  - destruct (is_meta_line (strip raw)); [done|].
    destruct (is_match (pmatch VERSUS_RE (strip raw))).
    { destruct Hst as (k & Hk & Hall & Hc). by exists k. }
    destruct is_left; [by apply page_inv_fill|done].
Qed.

Lemma page_inv_lines is_left ls st :
  page_inv st → page_inv (foldl (step_line crt pno is_left) st ls).
Proof.
  revert st. induction ls as [|l ls IH]; intros st Hst; [done|].
  simpl. by apply IH, page_inv_line.
Qed.

Lemma page_inv_blocks split_x bs st :
  page_inv st → page_inv (foldl (step_block crt pno split_x) st bs).
Proof.
  revert st. induction bs as [|b bs IH]; intros st Hst; [done|].
  simpl. by apply IH, page_inv_lines.
Qed.
End PageInvariant.

Lemma step_page_items ds pno p :
  ∃ k, d_items (step_page ds pno p) = d_items ds ++ k ∧
       Forall (created_here (page_court ds p) pno) k.
Proof.
  unfold step_page. simpl.
  destruct (page_inv_blocks (d_items ds) (page_court ds p) pno (page_split_x p)
              (sort_by pair_ltZ block_key (page_blocks p))
              (PState (d_items ds) None false)) as (k & Hk & Hall & _).
  { apply page_inv_start. }
  by exists k.
Qed.

Lemma step_page_prefix ds pno p :
  d_items ds `prefix_of` d_items (step_page ds pno p).
Proof. destruct (step_page_items ds pno p) as (k & Hk & _). by exists k. Qed.

Lemma run_pages_prefix ps ds pno :
  d_items ds `prefix_of` d_items (run_pages ds pno ps).
Proof.
  revert ds pno. induction ps as [|p ps IH]; intros ds pno; [done|].
  simpl. etrans; [apply (step_page_prefix ds pno p)|apply IH].
Qed.

Lemma run_pages_app ps1 ps2 ds pno :
  run_pages ds pno (ps1 ++ ps2)
  = run_pages (run_pages ds pno ps1) (pno + length ps1) ps2.
Proof.
  revert ds pno. induction ps1 as [|p ps1 IH]; intros ds pno; simpl.
  - by rewrite Nat.add_0_r.
  - rewrite IH. by replace (S pno + length ps1) with (pno + S (length ps1)) by lia.
Qed.

Lemma parse_state_app doc1 doc2 :
  parse_state (doc1 ++ doc2) = run_pages (parse_state doc1) (length doc1) doc2.
Proof. unfold parse_state. by rewrite run_pages_app. Qed.

Lemma complete_fields it :
  complete it = true →
  (∃ c, court it = Some c ∧ c ≠ 0%Z) ∧
  (∃ p, petitioner it = Some p ∧ p ≠ "") ∧
  (∃ r, respondent it = Some r ∧ r ≠ "").
Proof.
  unfold complete. intros H.
  apply andb_true_iff in H as [H Hr]. apply andb_true_iff in H as [Hc Hp].
  split_and!.
  - destruct (court it) as [c|]; [|done]. exists c. split; [done|].
    simpl in Hc. apply negb_true_iff, Z.eqb_neq in Hc. done.
  - destruct (petitioner it) as [s|]; [|done]. exists s. by destruct s.
  - destruct (respondent it) as [s|]; [|done]. exists s. by destruct s.
Qed.

Lemma parse_pdf_elem doc e :
  e ∈ parse_pdf doc ↔ e ∈ d_items (parse_state doc) ∧ complete e = true.
Proof. unfold parse_pdf. rewrite list_elem_of_filter. tauto. Qed.

Lemma parse_state_snoc doc p :
  parse_state (doc ++ [p]) = step_page (parse_state doc) (length doc) p.
Proof. by rewrite parse_state_app. Qed.

Lemma most_recent_court_snoc doc p :
  most_recent_court (doc ++ [p])
  = if truthy_int (detect_court_number p) then detect_court_number p
    else most_recent_court doc.
Proof.
  unfold most_recent_court. rewrite fmap_app, filter_app. simpl.
  rewrite filter_cons, filter_nil.
  destruct (truthy_int (detect_court_number p)) eqn:Ht.
  - rewrite decide_True by done. by rewrite last_snoc.
  - rewrite decide_False by done. by rewrite app_nil_r.
Qed.

Lemma truthy_or_int a b :
  truthy_int b = true ∨ b = None →
  (if truthy_int (or_int a b) then or_int a b else b)
  = if truthy_int a then a else b.
Proof.
  unfold or_int. destruct (truthy_int a) eqn:Ha; [by rewrite Ha|].
  intros [Hb| ->]; [by rewrite Hb|done].
Qed.

Lemma last_court_step ds pno p :
  last_court (step_page ds pno p)
  = if truthy_int (page_court ds p) then page_court ds p else last_court ds.
Proof. done. Qed.

(** The carried court is the most recent detection; it is never zero. *)
Lemma last_court_parse doc :
  last_court (parse_state doc) = most_recent_court doc ∧
  (truthy_int (most_recent_court doc) = true ∨ most_recent_court doc = None).
Proof.
  induction doc as [|p doc [IH1 IH2]] using rev_ind; [by split; [|right]|].
  rewrite parse_state_snoc, last_court_step, most_recent_court_snoc.
  unfold page_court. rewrite IH1. rewrite truthy_or_int by done.
  split; [done|]. destruct (truthy_int (detect_court_number p)) eqn:Ht; auto.
Qed.

Lemma page_court_parse doc p :
  page_court (parse_state doc) p
  = if truthy_int (detect_court_number p) then detect_court_number p
    else most_recent_court doc.
Proof. unfold page_court, or_int. by rewrite (proj1 (last_court_parse doc)). Qed.

(** Every entry belongs to the page that its [page] field names, holds the
    court in force on that page, and has a serial of the shape that the
    serial pattern captures. *)
Lemma entries_court doc e :
  e ∈ d_items (parse_state doc) →
  ∃ n p, doc !! n = Some p ∧ page_no e = n + 1 ∧
         court e = page_court (parse_state (take n doc)) p ∧
         serial_shape (serial e).
Proof.
  induction doc as [|q doc IH] using rev_ind; [by intros ?%elem_of_nil|].
  rewrite parse_state_snoc.
  destruct (step_page_items (parse_state doc) (length doc) q) as (k & -> & Hall).
  intros [He|He]%elem_of_app.
  - destruct (IH He) as (n & p & Hn & Hpg & Hc & Hs).
    exists n, p. pose proof (lookup_lt_Some _ _ _ Hn).
    rewrite lookup_app_l by done. rewrite take_app_le by lia. done.
  - exists (length doc), q.
    rewrite lookup_app_r, Nat.sub_diag by done.
    rewrite take_app_length.
    rewrite Forall_forall in Hall. destruct (Hall _ He) as (Hc & Hp & Hs). done.
Qed.

(** ** The output filter *)

(** C1.  Every entry that [parse_pdf] returns has a court (not [None], not
    zero), a non-empty petitioner and a non-empty respondent; an entry that
    lacks one of them when the page loop ends is not in the returned list. *)
Theorem parse_pdf_entries_complete (doc : document) (e : entry) :
  (e ∈ parse_pdf doc →
     (∃ c, court e = Some c ∧ c ≠ 0%Z) ∧
     (∃ p, petitioner e = Some p ∧ p ≠ "") ∧
     (∃ r, respondent e = Some r ∧ r ≠ "")) ∧
  (e ∈ d_items (parse_state doc) →
     truthy_int (court e) = false ∨ truthy_str (petitioner e) = false
       ∨ truthy_str (respondent e) = false →
     e ∉ parse_pdf doc).
Proof.
  split.
  - intros [_ Hc]%parse_pdf_elem. by apply complete_fields.
  - intros _ Hmiss [_ Hc]%parse_pdf_elem. unfold complete in Hc.
    apply andb_true_iff in Hc as [Hc Hr]. apply andb_true_iff in Hc as [Hc Hp].
    destruct Hmiss as [H|[H|H]]; congruence.
Qed.

Lemma parse_pdf_entries_complete_witness :
  ((∃ c, court entry_5 = Some c ∧ c ≠ 0%Z) ∧
   (∃ p, petitioner entry_5 = Some p ∧ p ≠ "") ∧
   (∃ r, respondent entry_5 = Some r ∧ r ≠ "")) ∧
  entry_8 ∉ parse_pdf [page_court2; page_open_entry].
Proof.
  split.
  - apply (proj1 (parse_pdf_entries_complete [page_court2; page_open_entry] entry_5)).
    vm_compute. apply list_elem_of_here.
  - apply (proj2 (parse_pdf_entries_complete [page_court2; page_open_entry] entry_8)).
    + vm_compute. apply list_elem_of_further, list_elem_of_here.
    + right; right. reflexivity.
Defined.

(** ** Page boundaries *)

(** C10.  What a page leaves in [items] is final: the pages after it neither
    change nor remove an entry, because each page starts with no open entry
    and with the respondent flag down.  So an entry whose petitioner or
    respondent is unset when its page ends stays so, and the filter drops
    it. *)
Theorem page_boundary_freezes_entries (doc1 doc2 : document) (i : nat) (e : entry) :
  d_items (parse_state doc1) !! i = Some e →
  d_items (parse_state (doc1 ++ doc2)) !! i = Some e ∧
  (petitioner e = None ∨ respondent e = None → e ∉ parse_pdf (doc1 ++ doc2)).
Proof.
  intros He. split.
  - rewrite parse_state_app.
    destruct (run_pages_prefix doc2 (parse_state doc1) (length doc1)) as [k ->].
    by apply lookup_app_l_Some.
  - intros Hnone [_ Hc]%parse_pdf_elem.
    apply complete_fields in Hc as (_ & [p [Hp _]] & [r [Hr _]]).
    destruct Hnone; congruence.
Qed.

Lemma page_boundary_freezes_entries_witness :
  d_items (parse_state ([page_court2; page_open_entry] ++ [page_late_name])) !! 1
    = Some entry_8 ∧
  entry_8 ∉ parse_pdf ([page_court2; page_open_entry] ++ [page_late_name]).
Proof.
  destruct (page_boundary_freezes_entries [page_court2; page_open_entry]
              [page_late_name] 1 entry_8) as [Hkept Hdropped].
  { vm_compute. reflexivity. }
  split; [exact Hkept|]. apply Hdropped. right. reflexivity.
Defined.

(** ** The carried court number *)

(** C7, as the code has it.  A detection is a court number other than
    zero.  On a page without one, every entry of the page (its [page] field
    is the page's number) holds the most recent detection of the earlier
    pages; on a page with one, the carried court is that number once the
    page is done, and the entries of the page hold it. *)
Theorem court_carried_forward (doc : document) (n : nat) (p : page) :
  doc !! n = Some p →
  (truthy_int (detect_court_number p) = false →
     ∀ e, e ∈ d_items (parse_state doc) → page_no e = n + 1 →
          court e = most_recent_court (take n doc)) ∧
  (truthy_int (detect_court_number p) = true →
     last_court (parse_state (take (S n) doc)) = detect_court_number p ∧
     ∀ e, e ∈ d_items (parse_state doc) → page_no e = n + 1 →
          court e = detect_court_number p).
Proof.
  intros Hn.
  assert (Hent : ∀ e, e ∈ d_items (parse_state doc) → page_no e = n + 1 →
                      court e = page_court (parse_state (take n doc)) p).
  { intros e He Hpg.
    destruct (entries_court doc e He) as (m & q & Hm & Hpg' & Hc & _).
    assert (m = n) as -> by lia. by simplify_eq. }
  split; intros Ht.
  - intros e He Hpg. rewrite (Hent e He Hpg), page_court_parse. by rewrite Ht.
  - split.
    + rewrite (take_S_r _ _ _ Hn).
      rewrite (proj1 (last_court_parse _)), most_recent_court_snoc. by rewrite Ht.
    + intros e He Hpg. rewrite (Hent e He Hpg), page_court_parse. by rewrite Ht.
Qed.

Lemma court_carried_forward_witness :
  court entry_6 = most_recent_court (take 1 [page_court2; page_plain]) ∧
  last_court (parse_state (take 1 [page_court2; page_plain]))
    = detect_court_number page_court2.
Proof.
  split.
  - apply (proj1 (court_carried_forward [page_court2; page_plain] 1 page_plain
                    eq_refl) eq_refl entry_6); [|reflexivity].
    vm_compute. apply list_elem_of_further, list_elem_of_here.
  - apply (proj2 (court_carried_forward [page_court2; page_plain] 0 page_court2
                    eq_refl)).
    vm_compute. reflexivity.
Defined.

(** C7 as worded fails on a header that reads court number zero: the page
    does yield a number, yet the carried court stays at 2, and the entries of
    that page and of the next hold 2. *)
Lemma court_zero_is_no_detection :
  detect_court_number page_court0 = Some 0%Z ∧
  last_court (parse_state [page_court2; page_court0]) = Some 2%Z ∧
  detect_court_number page_plain = None ∧
  (fun e => (page_no e, court e))
    <$> d_items (parse_state [page_court2; page_court0; page_plain])
  = [(1, Some 2%Z); (2, Some 2%Z); (3, Some 2%Z)].
Proof. vm_compute. repeat split. Qed.

(** ** The index *)

Lemma dict_get_set {V : Type} (d : list (string * V)) k v k' :
  dict_get (dict_set d k v) k' = if decide (k = k') then Some v else dict_get d k'.
Proof.
  induction d as [|[k0 v0] d IH]; simpl.
  - destruct (String.eqb_spec k k'); by case_decide.
  - destruct (String.eqb_spec k0 k) as [->|Hne]; simpl.
    + destruct (String.eqb_spec k k'); by case_decide.
    + rewrite IH. destruct (String.eqb_spec k0 k'); [|done].
      subst. by rewrite decide_False by done.
Qed.

Lemma first_with_key_cons k it its :
  first_with_key k (it :: its)
  = if decide (entry_key it = k) then Some it else first_with_key k its.
Proof. unfold first_with_key. rewrite filter_cons. by case_decide. Qed.

Lemma build_index_from idx its k :
  dict_get (foldl (fun idx it =>
                     let key := entry_key it in
                     if dict_has idx key then idx else dict_set idx key it)
                  idx its) k
  = match dict_get idx k with
    | Some v => Some v
    | None => first_with_key k its
    end.
Proof.
  revert idx. induction its as [|it its IH]; intros idx; simpl.
  - by destruct (dict_get idx k).
  - rewrite IH, first_with_key_cons. unfold dict_has.
    destruct (dict_get idx (entry_key it)) as [v|] eqn:Hkey; simpl.
    + destruct (dict_get idx k) eqn:Hk; [done|].
      rewrite decide_False; [done|]. intros <-. congruence.
    + rewrite dict_get_set. case_decide as Heq; [|done].
      subst k. by rewrite Hkey.
Qed.

Lemma build_index_get its k :
  dict_get (build_index its) k = first_with_key k its.
Proof. unfold build_index. by rewrite build_index_from. Qed.

(** C6.  Looking a key up in the index yields the first entry, in input
    order, that bears the key; so of the entries that share a court/serial
    key the earliest one answers, and a later one never replaces it. *)
Theorem build_index_first_wins (its : list entry) :
  (∀ k, dict_get (build_index its) k = first_with_key k its) ∧
  (∀ i e, its !! i = Some e →
          (∀ j e', j < i → its !! j = Some e' → entry_key e' ≠ entry_key e) →
          dict_get (build_index its) (entry_key e) = Some e).
Proof.
  split; [apply build_index_get|].
  intros i e Hi Hfirst. rewrite build_index_get.
  revert i Hi Hfirst. induction its as [|it its IH]; intros i Hi Hfirst; [done|].
  rewrite first_with_key_cons. destruct i as [|i]; simpl in Hi.
  - injection Hi as ->. by rewrite decide_True.
  - rewrite decide_False by (by apply (Hfirst 0 it); [lia|]).
    apply (IH i Hi). intros j e' Hj He'. apply (Hfirst (S j) e'); [lia|done].
Qed.

Lemma build_index_first_wins_witness :
  dict_get (build_index [entry_5; entry_10_first; entry_10_second]) "3/10"
  = Some entry_10_first.
Proof.
  apply (proj2 (build_index_first_wins [entry_5; entry_10_first; entry_10_second])
           1 entry_10_first eq_refl).
  intros j e' Hj He'. assert (j = 0) as -> by lia.
  injection He' as <-. by vm_compute.
Defined.

(** ** Lookups *)

Lemma lookup_lines_miss idx req i r :
  req !! i = Some r → dict_get idx r = None →
  lookup_lines idx req !! i = Some (r +:+ " - NOT FOUND").
Proof.
  intros Hi Hr. unfold lookup_lines. rewrite list_lookup_fmap, Hi. simpl.
  unfold render_ref. by rewrite Hr.
Qed.

(** C8.  A reference that is no key of the index is answered, at its place
    among the answers, by the line "<ref> - NOT FOUND": [main] returns
    normally with one line per reference, and so does the loop of the
    Streamlit script. *)
Theorem lookup_miss_reported `{PyFloat F} (a : args) (refs : string)
    (i : nat) (r : string) :
  dict_get (build_index (parse_pdf (a_pdf a))) r = None →
  (a_dump_all a = false → main_req a !! i = Some r →
     ∃ out, main a = Returned out ∧ length out = length (main_req a) ∧
            out !! i = Some (r +:+ " - NOT FOUND")) ∧
  (query_refs refs !! i = Some r →
     length (app_lines (a_pdf a) refs) = length (query_refs refs) ∧
     app_lines (a_pdf a) refs !! i = Some (r +:+ " - NOT FOUND")).
Proof.
  intros Hr. split.
  - intros Hd Hi. unfold main. rewrite Hd.
    destruct (main_req a) as [|r0 req] eqn:Hreq; [done|].
    eexists. split; [done|]. split.
    + unfold lookup_lines. by rewrite length_fmap.
    + by apply lookup_lines_miss.
  - intros Hi. unfold app_lines. split.
    + unfold lookup_lines. by rewrite length_fmap.
    + by apply lookup_lines_miss.
Qed.

Lemma lookup_miss_reported_witness :
  (∃ out, @main Q exact_float sample_args = Returned out ∧
          length out = length (main_req sample_args) ∧
          out !! 1 = Some ("9/9" +:+ " - NOT FOUND")) ∧
  length (app_lines (a_pdf sample_args) "2/5, 9/9") = length (query_refs "2/5, 9/9") ∧
  app_lines (a_pdf sample_args) "2/5, 9/9" !! 1 = Some ("9/9" +:+ " - NOT FOUND").
Proof.
  pose proof (@lookup_miss_reported Q exact_float sample_args "2/5, 9/9" 1 "9/9"
                ltac:(vm_compute; reflexivity)) as [Hmain Happ].
  split.
  - apply Hmain; reflexivity.
  - apply Happ. vm_compute. reflexivity.
Defined.

(** ** Lines of the left column *)

(** Evaluate a closed subterm of the goal. *)
Ltac eval_closed t :=
  let v := eval vm_compute in t in
  replace t with v by (vm_compute; reflexivity).

(** C2, as the code has it.  The line "12 No. something" is a meta line,
    since it contains "No."; but in the left column the serial pattern is
    tried first, so the line opens entry "12".  Only in the right column
    is it dropped by the meta rule. *)
Theorem serial_checked_before_meta (crt : option Z) (pno : nat) (st : pstate) :
  is_meta_line "12 No. something" = true ∧
  step_line crt pno true st "12 No. something" = opened crt pno st "12" ∧
  step_line crt pno false st "12 No. something" = st.
Proof.
  split; [vm_compute; reflexivity|].
  unfold step_line. cbv zeta.
  eval_closed (strip "12 No. something"). simpl negb. cbv iota.
  eval_closed (pmatch SERIAL_RE "12 No. something").
  eval_closed (is_meta_line "12 No. something").
  done.
Qed.

(** C2 as worded fails: on an empty page state the left-column line
    "12 No. something" is not discarded, it opens entry "12". *)
Lemma no_dot_line_opens_entry :
  step_line (Some 2%Z) 0 true (PState [] None false) "12 No. something"
  = PState [Entry (Some 2%Z) "12" None None 1] (Some 0) false.
Proof. vm_compute. reflexivity. Qed.

(** ** Words kept as they are *)

Lemma upper_abbreviations_kept w : w ∈ upper_abbreviations → w ∈ kept.
Proof.
  unfold upper_abbreviations, kept. rewrite elem_of_list_to_set. intros H.
  repeat (apply elem_of_cons in H as [->|H];
          [by repeat first [apply list_elem_of_here|apply list_elem_of_further]|]).
  by apply elem_of_nil in H.
Qed.

(** C5, as the code has it.  A word goes to the output unchanged when it
    contains a digit, or contains a period and equals its own upper-casing,
    or when its upper-casing is one of the abbreviations: the comparison
    with the abbreviations ignores letter case. *)
Theorem kept_words_verbatim (i : nat) (w : string) :
  existsb_chars isdigit w = true
  ∨ (contains_char "." w = true ∧ upper w = w)
  ∨ upper w ∈ upper_abbreviations →
  title_word i w = w.
Proof.
  intros H. unfold title_word.
  assert (keep_verbatim w = true) as ->; [|done].
  unfold keep_verbatim. destruct H as [H|[[H1 H2]|H]].
  - by rewrite H.
  - rewrite H1, H2, String.eqb_refl. by rewrite orb_true_r.
  - rewrite (bool_decide_eq_true_2 _ (upper_abbreviations_kept _ H)).
    by rewrite orb_true_r.
Qed.

Lemma kept_words_verbatim_witness :
  title_word 1 "nct" = "nct" ∧ title_word 0 "W.P.(C)" = "W.P.(C)"
  ∧ title_word 2 "2024" = "2024".
Proof.
  split; [|split].
  - apply kept_words_verbatim. right; right. vm_compute.
    apply list_elem_of_further, list_elem_of_here.
  - apply kept_words_verbatim. right; left. split; reflexivity.
  - apply kept_words_verbatim. left. reflexivity.
Defined.

(** C5 as worded fails twice: "nct" matches "NCT" only up to letter case and
    is kept as written, and "T.P.(Crl.)" is not kept but re-cased. *)
Lemma abbreviation_match_ignores_case :
  keep_verbatim "nct" = true ∧ smart_title "nct" = "nct" ∧
  keep_verbatim "T.P.(Crl.)" = false ∧ smart_title "T.P.(Crl.)" = "T.p.(crl.)".
Proof. vm_compute. repeat split. Qed.

(** ** Normalising twice *)

(** C4, as the code has it.  The casing of the words, before the final
    [strip(" ,.-")], is idempotent; [smart_title] as a whole is idempotent on
    every input from whose cased words that final strip removes nothing. *)
Theorem smart_title_idempotent_unless_stripped (s : string) :
  title_words (title_words s) = title_words s ∧
  (smart_title s = title_words s → smart_title (smart_title s) = smart_title s).
Proof.
  assert (Hidem : title_words (title_words s) = title_words s).
  { unfold title_words. rewrite !split_normalised.
    rewrite split_join by apply imap_title_word_tokens, split_tokens.
    by rewrite imap_title_word_idem. }
  split; [done|]. intros Heq. rewrite Heq. unfold smart_title in *.
  by rewrite Hidem.
Qed.

Lemma smart_title_idempotent_unless_stripped_witness :
  smart_title (smart_title "  union   OF india ") = smart_title "  union   OF india ".
Proof.
  apply (proj2 (smart_title_idempotent_unless_stripped "  union   OF india ")).
  vm_compute. reflexivity.
Defined.

(** C4 as worded fails: the final strip turns "LTD." into "LTD", which is no
    longer kept as it is and becomes "Ltd" at the second pass; it turns
    "- and" into "and", which then stands first and is capitalised. *)
Lemma smart_title_not_idempotent :
  smart_title "LTD." = "LTD" ∧ smart_title (smart_title "LTD.") = "Ltd" ∧
  smart_title "- and" = "and" ∧ smart_title (smart_title "- and") = "And".
Proof. vm_compute. repeat split. Qed.


(** ** Serial markers *)

Lemma fill_current_length line st :
  length (items (fill_current line st)) = length (items st).
Proof.
  unfold fill_current. repeat case_match; simpl; by rewrite ?length_insert.
Qed.

(** C3, as the code has it.  The serial pattern matches a line exactly when
    the line, after optional spaces, begins with a token of one to three
    digits, optionally followed by a period and digits, that ends at a word
    boundary; the captured serial is such a token.  The left-column line
    "115.30 Some text" opens entry "115.30"; the line "1234 text" matches
    nothing and opens no entry. *)
Theorem serial_marker_token (crt : option Z) (pno : nat) (st : pstate)
    (line : string) :
  (∀ m, pmatch SERIAL_RE line = Some m → serial_prefix line (mgroup 1 m)) ∧
  ((∃ tok, serial_prefix line tok) → is_Some (pmatch SERIAL_RE line)) ∧
  step_line crt pno true st "115.30 Some text" = opened crt pno st "115.30" ∧
  pmatch SERIAL_RE "1234 text" = None ∧
  length (items (step_line crt pno true st "1234 text")) = length (items st).
Proof.
  split; [intros m; apply serial_match_sound|].
  split; [intros [tok Htok]; by eapply serial_match_complete|].
  split; [|split; [vm_compute; reflexivity|]].
  - unfold step_line. cbv zeta.
    eval_closed (strip "115.30 Some text"). simpl negb. cbv iota.
    by eval_closed (pmatch SERIAL_RE "115.30 Some text").
  - unfold step_line. cbv zeta.
    eval_closed (strip "1234 text"). simpl negb. cbv iota.
    eval_closed (pmatch SERIAL_RE "1234 text").
    eval_closed (is_meta_line "1234 text").
    eval_closed (is_match (pmatch VERSUS_RE "1234 text")).
    cbv iota. apply fill_current_length.
Qed.

Lemma serial_shape_digits d :
  forallb_chars isdigit d = true → 1 ≤ String.length d ≤ 3 → serial_shape d.
Proof.
  intros Hd Hlen. exists d, "". rewrite sapp_nil_r.
  split; [done|]. split; [done|]. split; [done|]. by left.
Qed.

Lemma serial_marker_token_witness :
  serial_prefix "115.30 Some text" "115.30" ∧ is_Some (pmatch SERIAL_RE "7 x").
Proof.
  split.
  - apply (proj1 (serial_marker_token None 0 (PState [] None false)
                    "115.30 Some text")
             (MObj (Pos (Some "0"%char) " Some text") [(1, "115.30")])).
    vm_compute. reflexivity.
  - apply (proj1 (proj2 (serial_marker_token None 0 (PState [] None false) "7 x"))).
    exists "7", "", " x". split_and!; try reflexivity.
    apply serial_shape_digits; [reflexivity|simpl; lia].
Defined.

(** C3 as worded fails: "12abc" begins with two digits, a token of the
    serial shape, yet the pattern does not match it, because a letter
    follows the digits; the line opens no entry. *)
Lemma digits_before_letter_no_marker :
  (∃ after, "12abc" = "12" +:+ after ∧ serial_shape "12") ∧
  pmatch SERIAL_RE "12abc" = None ∧
  step_line (Some 2%Z) 0 true (PState [] None false) "12abc"
  = PState [] None false.
Proof.
  split; [|by vm_compute].
  exists "abc". split; [done|]. apply serial_shape_digits; [done|simpl; lia].
Qed.

(** ** Sorting *)

Section SortingFacts.
Context {A K : Type} (lt : K → K → bool) (key : A → K).
Hypothesis lt_irrefl : ∀ x, lt x x = false.
Hypothesis lt_trans : ∀ x y z, lt x y = true → lt y z = true → lt x z = true.

Lemma lt_asym x y : lt x y = true → lt y x = false.
Proof.
  intros Hxy. destruct (lt y x) eqn:Hyx; [|done].
  by rewrite <-(lt_irrefl x), (lt_trans x y x).
Qed.

Lemma insert_by_perm x l : insert_by lt key x l ≡ₚ x :: l.
Proof.
  induction l as [|y l IH]; simpl; [done|].
  destruct (lt (key x) (key y)); [done|].
  rewrite IH. apply Permutation_swap.
Qed.

Lemma sort_by_perm l : sort_by lt key l ≡ₚ l.
Proof.
  unfold sort_by. rewrite <-(app_nil_l l) at 2.
  generalize (@nil A). induction l as [|x l IH]; intros acc; simpl.
  - by rewrite app_nil_r.
  - rewrite IH, insert_by_perm. simpl. apply Permutation_middle.
Qed.

Lemma insert_by_ordered x l :
  ordered_by lt key l → ordered_by lt key (insert_by lt key x l).
Proof.
  unfold ordered_by. induction 1 as [|y l Hl IH Hy]; simpl.
  { repeat constructor. }
  destruct (lt (key x) (key y)) eqn:Hxy.
  - constructor; [by constructor|]. constructor; [by apply lt_asym|].
    rewrite Forall_forall in Hy |- *. intros z Hz.
    destruct (lt (key z) (key x)) eqn:Hzx; [|done].
    by rewrite <-(Hy z Hz), (lt_trans _ _ _ Hzx Hxy).
  - constructor; [done|]. rewrite insert_by_perm. by constructor.
Qed.

Lemma sort_by_ordered l : ordered_by lt key (sort_by lt key l).
Proof.
  unfold sort_by. assert (Hnil : ordered_by lt key []) by constructor.
  revert Hnil. generalize (@nil A).
  induction l as [|x l IH]; intros acc Hacc; simpl; [done|].
  by apply IH, insert_by_ordered.
Qed.

Lemma ordered_by_lookup l i j x y :
  ordered_by lt key l → i < j → l !! i = Some x → l !! j = Some y →
  lt (key y) (key x) = false.
Proof.
  unfold ordered_by. intros Hl. revert i j.
  induction Hl as [|z l Hl IH Hz]; intros i j Hij Hi Hj; [done|].
  destruct j as [|j]; [lia|]. simpl in Hj. destruct i as [|i]; simpl in Hi.
  - injection Hi as ->. rewrite Forall_forall in Hz.
    apply Hz. by eapply list_elem_of_lookup_2.
  - apply (IH i j); [lia|done..].
Qed.
End SortingFacts.

(** ** Printing and reading integers *)

Lemma digits_value_app acc s t :
  digits_value acc (s +:+ t) = digits_value (digits_value acc s) t.
Proof.
  revert acc. induction s as [|a s IH]; intros acc; [done|].
  rewrite sapp_cons. simpl. apply IH.
Qed.

Lemma int_go_digits ds acc b :
  forallb_chars isdigit ds = true → b = true ∨ ds ≠ "" →
  int_go acc b ds = Some (digits_value acc ds).
Proof.
  revert acc b. induction ds as [|a ds IH]; intros acc b Hds Hb; simpl.
  - by destruct Hb as [->|?].
  - simpl in Hds. apply andb_true_iff in Hds as [-> Hds]. apply IH; auto.
Qed.

Lemma pretty_N_char_digit n :
  (n < 10)%N →
  isdigit (pretty_N_char n) = true ∧ digit_val (pretty_N_char n) = Z.of_N n.
Proof.
  intros Hn.
  assert (n = 0 ∨ n = 1 ∨ n = 2 ∨ n = 3 ∨ n = 4 ∨ n = 5 ∨ n = 6 ∨ n = 7
          ∨ n = 8 ∨ n = 9)%N as Hcases by lia.
  repeat (destruct Hcases as [->|Hcases]; [by vm_compute|]). by subst.
Qed.

(** [pretty_N_go x] puts the decimal digits of [x] in front. *)
Lemma pretty_N_go_digits x :
  ∃ ds, (∀ s, pretty_N_go x s = ds +:+ s) ∧
        forallb_chars isdigit ds = true ∧
        digits_value 0 ds = Z.of_N x ∧
        ((0 < x)%N → ds ≠ "").
Proof.
  induction (N.lt_wf_0 x) as [x _ IH].
  destruct (decide (0 < x)%N) as [Hx|Hx].
  - destruct (IH (x `div` 10)%N) as (ds & Hgo & Hds & Hval & _).
    { by apply N.div_lt. }
    destruct (pretty_N_char_digit (x `mod` 10)%N) as [Hc Hv].
    { by apply N.mod_lt. }
    exists (ds +:+ String (pretty_N_char (x `mod` 10)) ""). split_and!.
    + intros s. rewrite pretty_N_go_step, Hgo by done. by rewrite sapp_assoc.
    + rewrite forallb_chars_app, Hds. simpl. by rewrite Hc.
    + rewrite digits_value_app, Hval. simpl. rewrite Hv.
      pose proof (N.div_mod x 10). lia.
    + intros _. by destruct ds.
  - assert (x = 0%N) as -> by lia. exists "". by split_and!.
Qed.

Lemma lstrip_by_id f s :
  forallb_chars (fun a => negb (f a)) s = true → lstrip_by f s = s.
Proof.
  destruct s as [|a s]; [done|]. simpl.
  intros [Ha _]%andb_true_iff. apply negb_true_iff in Ha. by rewrite Ha.
Qed.

Lemma strip_by_id f s :
  forallb_chars (fun a => negb (f a)) s = true → strip_by f s = s.
Proof.
  intros Hs. unfold strip_by, rstrip_by. rewrite (lstrip_by_id f s Hs).
  rewrite lstrip_by_id by (by rewrite forallb_chars_srev).
  apply srev_involutive.
Qed.

Lemma forallb_chars_impl (f g : ascii → bool) s :
  (∀ a, f a = true → g a = true) →
  forallb_chars f s = true → forallb_chars g s = true.
Proof.
  intros Hfg. induction s as [|a s IH]; [done|]. simpl.
  intros [Ha Hs]%andb_true_iff. by rewrite (Hfg a Ha), IH.
Qed.

Lemma digit_facts a :
  isdigit a = true →
  isspace a = false ∧ Ascii.eqb a "-" = false ∧ Ascii.eqb a "+" = false
  ∧ Ascii.eqb a "/" = false.
Proof.
  destruct a as [[] [] [] [] [] [] [] []]; vm_compute; intros H;
    try discriminate H; by repeat split.
Qed.

Lemma int_of_digits ds :
  forallb_chars isdigit ds = true → ds ≠ "" →
  py_int ds = Some (digits_value 0 ds).
Proof.
  intros Hds Hne. unfold py_int, strip. rewrite strip_by_id.
  - destruct ds as [|a ds]; [done|].
    pose proof Hds as Hds'. simpl in Hds'. apply andb_true_iff in Hds' as [Ha _].
    destruct (digit_facts a Ha) as (_ & -> & -> & _). by apply int_go_digits; auto.
  - eapply forallb_chars_impl; [|exact Hds].
    intros a Ha. by destruct (digit_facts a Ha) as (-> & _).
Qed.

(** [int(str(n)) == n] *)
Lemma int_of_str_int n : py_int (str_int n) = Some n.
Proof.
  unfold str_int, pretty, pretty_Z. destruct n as [|p|p].
  - by vm_compute.
  - unfold pretty, pretty_positive, pretty, pretty_N. rewrite decide_False by done.
    destruct (pretty_N_go_digits (N.pos p)) as (ds & Hgo & Hds & Hval & Hne).
    rewrite Hgo, sapp_nil_r. rewrite int_of_digits by (auto; apply Hne; lia).
    f_equal. by rewrite Hval.
  - unfold pretty, pretty_positive, pretty, pretty_N. rewrite decide_False by done.
    destruct (pretty_N_go_digits (N.pos p)) as (ds & Hgo & Hds & Hval & Hne).
    rewrite Hgo, sapp_nil_r. unfold py_int, strip. rewrite strip_by_id.
    + rewrite sapp_cons, sapp_nil_l. simpl.
      rewrite int_go_digits by (auto; right; apply Hne; lia).
      simpl. f_equal. rewrite Hval. lia.
    + rewrite sapp_cons, sapp_nil_l. simpl.
      eapply forallb_chars_impl; [|exact Hds].
      intros a Ha. by destruct (digit_facts a Ha) as (-> & _).
Qed.

Lemma contains_char_cons c a s :
  contains_char c (String a s) = Ascii.eqb c a || contains_char c s.
Proof. reflexivity. Qed.

(** A character that is no digit does not occur among digits. *)
Lemma no_char_in_digits c ds :
  isdigit c = false → forallb_chars isdigit ds = true →
  contains_char c ds = false.
Proof.
  intros Hc. induction ds as [|a ds IH]; [done|]. rewrite contains_char_cons.
  change (forallb_chars isdigit (String a ds))
    with (isdigit a && forallb_chars isdigit ds).
  intros [Ha Hds]%andb_true_iff. rewrite (IH Hds), orb_false_r.
  apply Ascii.eqb_neq. intros ->. congruence.
Qed.

Lemma no_slash_digits ds :
  forallb_chars isdigit ds = true → contains_char "/" ds = false.
Proof. by apply no_char_in_digits. Qed.

Lemma contains_char_app c s t :
  contains_char c (s +:+ t) = contains_char c s || contains_char c t.
Proof.
  induction s as [|a s IH]; [done|].
  rewrite sapp_cons, !contains_char_cons. by rewrite IH, orb_assoc.
Qed.

Lemma no_slash_str_int n : contains_char "/" (str_int n) = false.
Proof.
  unfold str_int, pretty, pretty_Z. destruct n as [|p|p]; [done|..];
    unfold pretty, pretty_positive, pretty, pretty_N; rewrite decide_False by done;
    destruct (pretty_N_go_digits (N.pos p)) as (ds & Hgo & Hds & _);
    rewrite Hgo, sapp_nil_r.
  - by apply no_slash_digits.
  - by rewrite contains_char_app, (no_slash_digits ds Hds).
Qed.

Lemma no_slash_serial s : serial_shape s → contains_char "/" s = false.
Proof.
  intros (d & fr & -> & Hd & _ & Hfr). rewrite contains_char_app.
  rewrite (no_slash_digits d Hd).
  destruct Hfr as [->|(d2 & -> & _ & Hd2)]; [done|].
  rewrite contains_char_cons. by rewrite (no_slash_digits d2 Hd2).
Qed.

Lemma split_on_go_last sep piece s :
  contains_char sep s = false → split_on_go sep piece s = [piece +:+ s].
Proof.
  revert piece.
  induction s as [|a s IH]; intros piece; [by rewrite sapp_nil_r|].
  rewrite contains_char_cons. intros [Ha Hs]%orb_false_iff.
  simpl. rewrite Ascii.eqb_sym, Ha, IH by done. by rewrite snoc_app.
Qed.

Lemma split_on_go_piece sep piece s t :
  contains_char sep s = false →
  split_on_go sep piece (s +:+ String sep t)
  = (piece +:+ s) :: split_on_go sep "" t.
Proof.
  revert piece.
  induction s as [|a s IH]; intros piece; rewrite ?sapp_cons, ?sapp_nil_l.
  - intros _. simpl. by rewrite Ascii.eqb_refl, sapp_nil_r.
  - rewrite contains_char_cons. intros [Ha Hs]%orb_false_iff.
    simpl. rewrite Ascii.eqb_sym, Ha, IH by done. by rewrite snoc_app.
Qed.

(** A key splits into the two parts it was built from. *)
Lemma split_key_parts c s :
  contains_char "/" c = false → contains_char "/" s = false →
  split_on "/" (c +:+ "/" +:+ s) = [c; s].
Proof.
  intros Hc Hs. unfold split_on.
  change ("/" +:+ s) with (String "/" s).
  rewrite split_on_go_piece, split_on_go_last by done. done.
Qed.

(** ** Dump-all *)

Lemma dict_keys_get {V : Type} (d : list (string * V)) k :
  k ∈ dict_keys d → is_Some (dict_get d k).
Proof.
  unfold dict_keys. induction d as [|[k0 v0] d IH]; simpl.
  - by intros ?%elem_of_nil.
  - intros [->|Hk]%elem_of_cons.
    + by rewrite String.eqb_refl.
    + destruct (String.eqb k0 k); [done|by apply IH].
Qed.

Lemma first_with_key_Some k its e :
  first_with_key k its = Some e → e ∈ its ∧ entry_key e = k.
Proof.
  unfold first_with_key. intros He%head_Some_elem_of.
  apply list_elem_of_filter in He. tauto.
Qed.

(** The key of an entry of the output reads back as its court and serial. *)
Lemma key_fn_entry `{PyFloat F} doc e :
  (∀ s, serial_shape s → is_Some (float_of_str s)) →
  e ∈ parse_pdf doc → is_Some (key_fn (entry_key e)).
Proof.
  intros Hfloat [He Hc]%parse_pdf_elem.
  apply complete_fields in Hc as ([c [Hc _]] & _).
  destruct (entries_court doc e He) as (_ & _ & _ & _ & _ & Hshape).
  destruct (Hfloat _ Hshape) as [f Hf].
  unfold key_fn, entry_key. rewrite Hc. simpl.
  rewrite split_key_parts; [|apply no_slash_str_int|by apply no_slash_serial].
  by rewrite int_of_str_int, Hf.
Qed.

(** Keys paired with their sort keys, as [sorted] computes them once. *)
Lemma keyed_list {V : Type} (f : string → option V) ks keyed :
  Forall2 (fun k vk => (fun v => (v, k)) <$> f k = Some vk) ks keyed →
  keyed.*2 = ks ∧ ∀ v k, (v, k) ∈ keyed → f k = Some v.
Proof.
  induction 1 as [|k vk ks vks Hk _ [IH1 IH2]].
  { split; [done|]. by intros v k ?%elem_of_nil. }
  destruct (f k) as [v0|] eqn:Hf; [|done]. injection Hk as <-.
  split; [rewrite fmap_cons; by f_equal|].
  intros v k' [[= -> ->]|Hin]%elem_of_cons; [done|by apply IH2].
Qed.

Section TupleOrder.
Context `{PyFloat F}.
Hypothesis float_irrefl : ∀ x, float_lt x x = false.
Hypothesis float_trans :
  ∀ x y z, float_lt x y = true → float_lt y z = true → float_lt x z = true.

Lemma tuple_lt_irrefl a : tuple_lt a a = false.
Proof. unfold tuple_lt. by rewrite Z.ltb_irrefl, float_irrefl, andb_false_r. Qed.

Lemma tuple_lt_trans a b c :
  tuple_lt a b = true → tuple_lt b c = true → tuple_lt a c = true.
Proof.
  unfold tuple_lt.
  intros [Hab|[Hab Hf]%andb_true_iff]%orb_true_iff
         [Hbc|[Hbc Hg]%andb_true_iff]%orb_true_iff;
    apply orb_true_iff.
  - left. lia.
  - left. lia.
  - left. lia.
  - right. apply andb_true_iff. split; [lia|by eapply float_trans].
Qed.
End TupleOrder.

(** C9.  Whatever document was parsed, [main] in dump-all mode raises
    nothing: the keys of the index, all of them, come out ordered by the pair
    (court read by [int], serial read by [float]), no later key being below
    an earlier one, and one line is printed per key in that order.  Of [float]
    this uses that [<] is irreflexive and transitive and that the conversion
    accepts the serials that the serial pattern captures. *)
Theorem dump_all_ascending `{PyFloat F}
    (float_irrefl : ∀ x, float_lt x x = false)
    (float_trans : ∀ x y z,
        float_lt x y = true → float_lt y z = true → float_lt x z = true)
    (float_serial : ∀ s, serial_shape s → is_Some (float_of_str s))
    (doc : document) :
  ∃ ks lines,
    sorted_keys (build_index (parse_pdf doc)) = Some ks ∧
    (∀ refs refs_file, main (Args doc refs refs_file true) = Returned lines) ∧
    ks ≡ₚ dict_keys (build_index (parse_pdf doc)) ∧
    Forall2 (fun k line =>
               ∃ it, dict_get (build_index (parse_pdf doc)) k = Some it ∧
                     line = format_line it) ks lines ∧
    ∀ i j ki kj, i < j → ks !! i = Some ki → ks !! j = Some kj →
      ∃ a b, key_fn ki = Some a ∧ key_fn kj = Some b ∧ tuple_lt b a = false.
Proof.
  set (idx := build_index (parse_pdf doc)).
  assert (Hkeys : ∀ k, k ∈ dict_keys idx → is_Some (key_fn k)).
  { intros k [it Hit]%dict_keys_get. unfold idx in Hit.
    rewrite build_index_get in Hit.
    apply first_with_key_Some in Hit as [Hin <-]. by eapply key_fn_entry. }
  destruct (mapM (fun k => (fun v => (v, k)) <$> key_fn k) (dict_keys idx))
    as [keyed|] eqn:Hkeyed; cycle 1.
  { apply mapM_None_1, Exists_exists in Hkeyed as (k & Hk & Hnone).
    destruct (Hkeys k Hk) as [v Hv]. by rewrite Hv in Hnone. }
  apply mapM_Some_1 in Hkeyed.
  destruct (keyed_list _ _ _ Hkeyed) as [Hsnd Hfst].
  set (sorted := sort_by tuple_lt fst keyed).
  assert (Hperm : sorted ≡ₚ keyed) by apply sort_by_perm.
  assert (Hks : sorted_keys idx = Some (sorted.*2)).
  { unfold sorted_keys. apply mapM_Some_2 in Hkeyed. by rewrite Hkeyed. }
  assert (Hks_perm : sorted.*2 ≡ₚ dict_keys idx) by (by rewrite Hperm, Hsnd).
  destruct (mapM (fun k => format_line <$> dict_get idx k) (sorted.*2))
    as [lines|] eqn:Hlines; cycle 1.
  { apply mapM_None_1, Exists_exists in Hlines as (k & Hk & Hnone).
    rewrite Hks_perm in Hk. destruct (dict_keys_get _ _ Hk) as [it Hit].
    by rewrite Hit in Hnone. }
  exists (sorted.*2), lines. split_and!; [done| |done| |].
  - intros refs refs_file. unfold main, dump_all. simpl.
    fold idx. rewrite Hks. simpl. by rewrite Hlines.
  - apply mapM_Some_1 in Hlines. eapply Forall2_impl; [exact Hlines|].
    intros k line Hk. simpl in Hk. destruct (dict_get idx k) as [it|]; [|done].
    exists it. split; [done|]. by injection Hk as <-.
  - intros i j ki kj Hij Hi Hj.
    apply list_lookup_fmap_Some in Hi as ([a ki'] & -> & Hi).
    apply list_lookup_fmap_Some in Hj as ([b kj'] & -> & Hj).
    exists a, b. simpl. split_and!.
    + apply Hfst. rewrite <-Hperm. by eapply list_elem_of_lookup_2.
    + apply Hfst. rewrite <-Hperm. by eapply list_elem_of_lookup_2.
    + eapply (ordered_by_lookup tuple_lt fst sorted i j (a, ki') (b, kj'));
        [|done..].
      apply sort_by_ordered;
        [by apply tuple_lt_irrefl|by apply tuple_lt_trans].
Qed.

(** *** The instance with exact decimals *)

Lemma Qltb_lt x y : Qltb x y = true ↔ (x < y)%Q.
Proof.
  unfold Qltb. rewrite negb_true_iff, <-not_true_iff_false, Qle_bool_iff.
  split; [apply Qnot_le_lt|apply Qlt_not_le].
Qed.

Lemma Qltb_irrefl x : Qltb x x = false.
Proof.
  apply not_true_iff_false. rewrite Qltb_lt. apply Qlt_irrefl.
Qed.

Lemma Qltb_trans x y z : Qltb x y = true → Qltb y z = true → Qltb x z = true.
Proof. rewrite !Qltb_lt. apply Qlt_trans. Qed.

Lemma exact_decimal_serial s : serial_shape s → is_Some (exact_decimal s).
Proof.
  intros (d & fr & -> & Hd & Hlen & Hfr).
  assert (Hne : d ≠ "") by (destruct d; simpl in Hlen; [lia|done]).
  assert (Hdot : contains_char "." d = false) by (by apply no_char_in_digits).
  unfold exact_decimal, split_on.
  destruct Hfr as [->|(d2 & -> & Hne2 & Hd2)].
  - rewrite sapp_nil_r, split_on_go_last, sapp_nil_l by done.
    rewrite Hd, int_go_digits by auto. done.
  - rewrite split_on_go_piece, sapp_nil_l by done.
    rewrite split_on_go_last, sapp_nil_l by (by apply no_char_in_digits).
    rewrite Hd, Hd2, !int_go_digits by auto. done.
Qed.

Lemma dump_all_ascending_witness :
  ∃ ks lines,
    @sorted_keys Q exact_float
      (build_index (parse_pdf [page_two_entries; page_chief])) = Some ks ∧
    (∀ refs refs_file,
        @main Q exact_float (Args [page_two_entries; page_chief] refs refs_file true)
        = Returned lines) ∧
    ks ≡ₚ dict_keys (build_index (parse_pdf [page_two_entries; page_chief])) ∧
    Forall2 (fun k line =>
               ∃ it, dict_get (build_index (parse_pdf [page_two_entries; page_chief])) k
                     = Some it ∧ line = format_line it) ks lines ∧
    ∀ i j ki kj, i < j → ks !! i = Some ki → ks !! j = Some kj →
      ∃ a b, @key_fn Q exact_float ki = Some a ∧ @key_fn Q exact_float kj = Some b
             ∧ @tuple_lt Q exact_float b a = false.
Proof.
  exact (@dump_all_ascending Q exact_float Qltb_irrefl Qltb_trans
           exact_decimal_serial [page_two_entries; page_chief]).
Defined.

(** The order is numeric, not that of the key strings: 9.5 before 10. *)
Example dump_all_two_courts :
  @dump_all Q exact_float (build_index (parse_pdf [page_two_entries; page_chief]))
  = Some ["1/3 - Petitioner Three Vs Respondent Three";
          "2/9.5 - Petitioner Nine Vs Respondent Nine";
          "2/10 - Petitioner Ten Vs Respondent Ten"].
Proof. vm_compute. reflexivity. Qed.

(** ** The court pattern captures a number *)

Lemma search_from_sound r pv s m :
  search_from r pv s = Some m →
  ∃ pv' s', run r accept (Pos pv' s') [] = Some m.
Proof.
  revert pv. induction s as [|a s IH]; intros pv; simpl.
  - destruct (run r accept (Pos pv "") []) eqn:Hrun; [|done].
    intros [= ->]. by exists pv, "".
  - destruct (run r accept (Pos pv (String a s)) []) eqn:Hrun.
    + intros [= ->]. by exists pv, (String a s).
    + apply IH.
Qed.

(** Group 1 of a match of the court pattern is a non-empty run of digits,
    so the [int] in [detect_court_number] cannot fail: when the model of
    [detect_court_number] yields [None], that is Python's [None]. *)
Lemma court_number_is_int s m :
  search COURT_NUM_RE s = Some m →
  ∃ ds, mgroup 1 m = ds ∧ forallb_chars isdigit ds = true ∧ ds ≠ "" ∧
        py_int (mgroup 1 m) = Some (digits_value 0 ds).
Proof.
  unfold search. intros (pv & s' & Hrun)%search_from_sound.
  apply run_sound in Hrun as (p' & c' & Hm & Hacc). injection Hacc as <-.
  cbv [COURT_NUM_RE seqs] in Hm.
  repeat match type of Hm with
         | matches (Seq _ (Seq _ _)) _ _ _ _ =>
             inversion Hm as [| |? ? ? ? ? ? ? ? _ Hm'| | | | | | | |];
             subst; clear Hm; rename Hm' into Hm
         end.
  inversion Hm as [| |? ? ? ? pg cg ? ? _ Hgrp| | | | | | | |]; subst.
  inversion Hgrp as [| | | | | | | | | |? ? ? ? ? cg' Hplus]; subst.
  cbv [Plus digit] in Hplus.
  inversion Hplus as [| |? ? ? ? pd cd ? ? Hd Hds| | | | | | | |]; subst.
  apply matches_chr_inv in Hd as (a & Ha & Hadv & ->).
  apply matches_star_chr_inv in Hds as (ds & Hds & Hadv' & ->).
  pose proof (advance_trans _ _ _ _ _ Hadv Hadv') as Hadv2.
  rewrite sapp_cons, sapp_nil_l in Hadv2.
  assert (Hgroup : mgroup 1 (MObj p' ((1, between_pos pg p') :: cg))
                   = String a ds).
  { unfold mgroup. simpl. by apply between_pos_advance. }
  assert (Hdigits : forallb_chars isdigit (String a ds) = true).
  { simpl. by rewrite Ha, Hds. }
  exists (String a ds). rewrite Hgroup. split_and!; try done.
  by apply int_of_digits.
Qed.

(** * Further properties of the parser *)

(** ** Court numbers *)

Lemma digits_value_nonneg s acc : (0 ≤ acc)%Z → (0 ≤ digits_value acc s)%Z.
Proof.
  revert acc. induction s as [|a s IH]; intros acc Hacc; [done|].
  simpl. apply IH. unfold digit_val. lia.
Qed.

Lemma court_match_nonneg s m n :
  search COURT_NUM_RE s = Some m → py_int (mgroup 1 m) = Some n → (0 ≤ n)%Z.
Proof.
  intros (ds & _ & _ & _ & Hint)%court_number_is_int. rewrite Hint.
  intros [= <-]. by apply digits_value_nonneg.
Qed.

Lemma scan_header_blocks_nonneg bs n :
  scan_header_blocks bs = Some n → (0 ≤ n)%Z.
Proof.
  induction bs as [|b bs IH]; [done|]. simpl.
  destruct (Qltb 180 (b_y1 b)); [done|].
  destruct (is_match (search CHIEF_JUSTICE_RE (b_text b))); [by intros [= <-]|].
  destruct (search COURT_NUM_RE (b_text b)) as [mm|] eqn:Hmm; [|done].
  by apply (court_match_nonneg (b_text b)).
Qed.

Lemma detect_court_number_nonneg p n :
  detect_court_number p = Some n → (0 ≤ n)%Z.
Proof.
  unfold detect_court_number.
  destruct (is_match (search CHIEF_JUSTICE_RE (page_text p))); [by intros [= <-]|].
  destruct (search COURT_NUM_RE (page_text p)) as [m|] eqn:Hm.
  - by apply (court_match_nonneg (page_text p)).
  - apply scan_header_blocks_nonneg.
Qed.



Lemma most_recent_court_detected doc c :
  most_recent_court doc = Some c →
  ∃ q, q ∈ doc ∧ detect_court_number q = Some c.
Proof.
  unfold most_recent_court.
  destruct (last _) as [o|] eqn:Hlast; [|done]. simpl. intros ->.
  apply last_Some_elem_of, list_elem_of_filter in Hlast as [_ Hin].
  apply list_elem_of_fmap in Hin as (q & Hq & Hin). by exists q.
Qed.

Lemma page_court_nonneg doc p c :
  page_court (parse_state doc) p = Some c → (0 ≤ c)%Z.
Proof.
  rewrite page_court_parse.
  destruct (truthy_int (detect_court_number p)).
  - apply detect_court_number_nonneg.
  - intros (q & _ & Hq)%most_recent_court_detected.
    by eapply detect_court_number_nonneg.
Qed.

(** X2.  Every entry that [parse_pdf] returns is well formed: its court is a
    positive integer, its serial is one to three digits with an optional
    period-and-digits part, and its page is the number (from 1) of a page of
    the document. *)
Theorem parse_pdf_entries_well_formed (doc : document) (e : entry) :
  e ∈ parse_pdf doc →
  (∃ c, court e = Some c ∧ (0 < c)%Z) ∧
  serial_shape (serial e) ∧
  1 ≤ page_no e ≤ length doc.
Proof.
  intros [He Hc]%parse_pdf_elem.
  apply complete_fields in Hc as ([c [Hc Hne]] & _).
  destruct (entries_court doc e He) as (n & p & Hn & Hpg & Hcourt & Hshape).
  split_and!; [|done|lia|].
  - exists c. split; [done|].
    rewrite Hc in Hcourt. symmetry in Hcourt.
    apply page_court_nonneg in Hcourt. lia.
  - apply lookup_lt_Some in Hn. lia.
Qed.

Lemma parse_pdf_entries_well_formed_witness :
  (∃ c, court entry_6 = Some c ∧ (0 < c)%Z) ∧
  serial_shape (serial entry_6) ∧
  1 ≤ page_no entry_6 ≤ length [page_court2; page_plain].
Proof.
  apply (parse_pdf_entries_well_formed [page_court2; page_plain] entry_6).
  vm_compute. apply list_elem_of_further, list_elem_of_here.
Defined.

(** ** The order of the entries *)

Lemma StronglySorted_filter {A} (R : A → A → Prop) (P : A → Prop)
    `{!∀ x, Decision (P x)} l :
  StronglySorted R l → StronglySorted R (filter P l).
Proof.
  induction 1 as [|x l Hl IH Hx]; [constructor|].
  rewrite filter_cons. case_decide; [|done].
  constructor; [done|]. rewrite Forall_forall in Hx |- *.
  intros y [_ Hy]%list_elem_of_filter. by apply Hx.
Qed.

Lemma StronglySorted_lookup {A} (R : A → A → Prop) l i j x y :
  StronglySorted R l → i < j → l !! i = Some x → l !! j = Some y → R x y.
Proof.
  intros Hl. revert i j. induction Hl as [|z l Hl IH Hz]; intros i j Hij Hi Hj;
    [done|].
  destruct j as [|j]; [lia|]. simpl in Hj. destruct i as [|i]; simpl in Hi.
  - injection Hi as ->. rewrite Forall_forall in Hz.
    apply Hz. by eapply list_elem_of_lookup_2.
  - apply (IH i j); [lia|done..].
Qed.

Lemma StronglySorted_const {A B} (f : A → B) (R : B → B → Prop) c l :
  R c c → Forall (fun x => f x = c) l →
  StronglySorted (fun x y => R (f x) (f y)) l.
Proof.
  intros Hc. induction 1 as [|x l Hx Hl IH]; constructor; [done|].
  eapply Forall_impl; [exact Hl|]. intros y Hy. simpl. by rewrite Hx, Hy.
Qed.

Lemma items_pages_ascending doc :
  StronglySorted (fun e1 e2 => page_no e1 ≤ page_no e2)
                 (d_items (parse_state doc)).
Proof.
  induction doc as [|q doc IH] using rev_ind; [constructor|].
  pose proof (entries_court doc) as Hold.
  rewrite parse_state_snoc.
  destruct (step_page_items (parse_state doc) (length doc) q) as (k & -> & Hall).
  apply StronglySorted_app_2; [|done|].
  - intros e1 e2 He1 He2.
    destruct (Hold e1 He1) as (n & p & Hn%lookup_lt_Some & -> & _).
    rewrite Forall_forall in Hall. destruct (Hall e2 He2) as (_ & -> & _). lia.
  - apply (StronglySorted_const page_no le (length doc + 1)); [done|].
    eapply Forall_impl; [exact Hall|]. by intros e (_ & ? & _).
Qed.

(** X3.  [parse_pdf] returns the entries in page order: an entry never
    comes before one of an earlier page. *)
Theorem parse_pdf_in_page_order (doc : document) (i j : nat) (ei ej : entry) :
  i < j → parse_pdf doc !! i = Some ei → parse_pdf doc !! j = Some ej →
  page_no ei ≤ page_no ej.
Proof.
  apply (StronglySorted_lookup (fun e1 e2 => page_no e1 ≤ page_no e2)).
  unfold parse_pdf. apply StronglySorted_filter, items_pages_ascending.
Qed.

Lemma parse_pdf_in_page_order_witness : page_no entry_5 ≤ page_no entry_6.
Proof.
  apply (parse_pdf_in_page_order [page_court2; page_plain] 0 1 entry_5 entry_6).
  - lia.
  - vm_compute. reflexivity.
  - vm_compute. reflexivity.
Defined.

(** X4.  Pages added at the end of a document leave what was recovered
    from the earlier pages as it was: the result for the shorter document
    is the beginning of the result for the longer one. *)
Theorem parse_pdf_extends (doc1 doc2 : document) :
  parse_pdf doc1 `prefix_of` parse_pdf (doc1 ++ doc2).
Proof.
  unfold parse_pdf. rewrite parse_state_app.
  destruct (run_pages_prefix doc2 (parse_state doc1) (length doc1)) as [k ->].
  rewrite filter_app. by eexists.
Qed.

(** ** Keys *)

Lemma split_on_go_length sep piece s : 1 ≤ length (split_on_go sep piece s).
Proof.
  revert piece. induction s as [|a s IH]; intros piece; simpl; [lia|].
  destruct (Ascii.eqb a sep); [simpl; lia|apply IH].
Qed.

Lemma split_on_go_length_sep sep piece s :
  contains_char sep s = true → 2 ≤ length (split_on_go sep piece s).
Proof.
  revert piece. induction s as [|a s IH]; intros piece; [done|].
  rewrite contains_char_cons. simpl. rewrite (Ascii.eqb_sym a sep).
  destruct (Ascii.eqb sep a); simpl.
  - intros _. pose proof (split_on_go_length sep "" s). lia.
  - apply IH.
Qed.

(** The key of an entry with a court splits at its first slash. *)
Lemma split_entry_key c s :
  split_on "/" (str_int c +:+ "/" +:+ s) = str_int c :: split_on_go "/" "" s.
Proof.
  unfold split_on. change ("/" +:+ s) with (String "/" s).
  by rewrite split_on_go_piece, sapp_nil_l by apply no_slash_str_int.
Qed.

(** X5.  [key_fn] undoes the key format: on the key of an entry with court
    [c] and a serial without slash it yields [c] and the [float] of the
    serial; where the serial holds a slash the unpacking fails, and so
    does [key_fn]. *)
Theorem key_fn_entry_key `{PyFloat F} (c : Z) (s : string)
    (pet resp : option string) (pg : nat) :
  (contains_char "/" s = false →
   key_fn (entry_key (Entry (Some c) s pet resp pg))
   = (fun f => (c, f)) <$> float_of_str s) ∧
  (contains_char "/" s = true →
   key_fn (entry_key (Entry (Some c) s pet resp pg)) = None).
Proof.
  unfold key_fn, entry_key. simpl. rewrite split_entry_key. split; intros Hs.
  - rewrite split_on_go_last, sapp_nil_l by done.
    rewrite int_of_str_int. by destruct (float_of_str s).
  - pose proof (split_on_go_length_sep "/" "" s Hs) as Hlen.
    destruct (split_on_go "/" "" s) as [|x [|y l]]; simpl in Hlen; [lia|lia|done].
Qed.

Lemma key_fn_entry_key_witness :
  @key_fn Q exact_float (entry_key (Entry (Some 12%Z) "115.30" None None 1))
    = (fun f => (12%Z, f)) <$> exact_decimal "115.30" ∧
  @key_fn Q exact_float (entry_key (Entry (Some 12%Z) "3/4" None None 1)) = None.
Proof.
  split.
  - apply (proj1 (@key_fn_entry_key Q exact_float 12 "115.30" None None 1)).
    reflexivity.
  - apply (proj2 (@key_fn_entry_key Q exact_float 12 "3/4" None None 1)).
    reflexivity.
Defined.

Lemma entry_key_parts e1 e2 c1 c2 :
  court e1 = Some c1 → court e2 = Some c2 →
  contains_char "/" (serial e1) = false → contains_char "/" (serial e2) = false →
  entry_key e1 = entry_key e2 → c1 = c2 ∧ serial e1 = serial e2.
Proof.
  unfold entry_key. intros -> -> Hs1 Hs2 Hkey. simpl in Hkey.
  apply (f_equal (split_on "/")) in Hkey.
  rewrite !split_entry_key, !split_on_go_last, !sapp_nil_l in Hkey by done.
  injection Hkey as Hc Hs. split; [|done].
  by apply (inj pretty) in Hc.
Qed.

(** X6.  Among the entries that [parse_pdf] returns, two have the same
    index key exactly when they have the same court and the same serial:
    different listings never meet under one key. *)
Theorem entry_key_separates (doc : document) (e1 e2 : entry) :
  e1 ∈ parse_pdf doc → e2 ∈ parse_pdf doc →
  (entry_key e1 = entry_key e2 ↔ court e1 = court e2 ∧ serial e1 = serial e2).
Proof.
  intros [He1 Hc1]%parse_pdf_elem [He2 Hc2]%parse_pdf_elem.
  apply complete_fields in Hc1 as ([c1 [Hc1 _]] & _).
  apply complete_fields in Hc2 as ([c2 [Hc2 _]] & _).
  destruct (entries_court doc e1 He1) as (_ & _ & _ & _ & _ & Hs1).
  destruct (entries_court doc e2 He2) as (_ & _ & _ & _ & _ & Hs2).
  split.
  - intros Hkey.
    destruct (entry_key_parts e1 e2 c1 c2) as [-> Hs];
      [done|done|by apply no_slash_serial|by apply no_slash_serial|done|].
    by rewrite Hc1, Hc2.
  - intros [Hc Hs]. unfold entry_key. by rewrite Hc, Hs.
Qed.

Lemma entry_key_separates_witness :
  entry_key entry_5 = entry_key entry_6
  ↔ court entry_5 = court entry_6 ∧ serial entry_5 = serial entry_6.
Proof.
  apply (entry_key_separates [page_court2; page_plain]).
  - vm_compute. apply list_elem_of_here.
  - vm_compute. apply list_elem_of_further, list_elem_of_here.
Defined.

(** ** The index as a dictionary *)

Lemma dict_get_None {V : Type} (d : list (string * V)) k :
  dict_get d k = None ↔ k ∉ dict_keys d.
Proof.
  unfold dict_keys. induction d as [|[k0 v0] d IH]; simpl.
  - split; [intros _ ?%elem_of_nil|]; done.
  - rewrite not_elem_of_cons. destruct (String.eqb_spec k0 k) as [->|Hne].
    + split; [done|]. by intros [? _].
    + rewrite IH. split; [by split|by intros [_ ?]].
Qed.

Lemma dict_keys_set_new {V : Type} (d : list (string * V)) k v :
  dict_get d k = None → dict_keys (dict_set d k v) = dict_keys d ++ [k].
Proof.
  unfold dict_keys. induction d as [|[k0 v0] d IH]; simpl; [done|].
  destruct (String.eqb k0 k); [done|]. intros Hk.
  rewrite fmap_cons. simpl. f_equal. by apply IH.
Qed.

Lemma build_index_keys_NoDup its : NoDup (dict_keys (build_index its)).
Proof.
  unfold build_index.
  assert (Hnil : NoDup (dict_keys (@nil (string * entry)))) by constructor.
  revert Hnil. generalize (@nil (string * entry)).
  induction its as [|it its IH]; intros idx Hidx; simpl; [done|].
  apply IH. unfold dict_has.
  destruct (dict_get idx (entry_key it)) eqn:Hget; simpl; [done|].
  rewrite dict_keys_set_new by done.
  apply NoDup_app. split_and!; [done| |apply NoDup_singleton].
  intros k Hk ->%list_elem_of_singleton. by apply dict_get_None in Hget.
Qed.

Lemma first_with_key_is_Some k its :
  is_Some (first_with_key k its) ↔ ∃ e, e ∈ its ∧ entry_key e = k.
Proof.
  split.
  - intros [e He]. exists e. by apply first_with_key_Some.
  - intros (e & He & Hk). unfold first_with_key.
    destruct (filter _ its) as [|x l] eqn:Hf; [|by eexists].
    assert (e ∈ filter (fun it => entry_key it = k) its) as Hin
      by (by apply list_elem_of_filter).
    rewrite Hf in Hin. by apply elem_of_nil in Hin.
Qed.

Lemma build_index_keys_elem its k :
  k ∈ dict_keys (build_index its) ↔ ∃ e, e ∈ its ∧ entry_key e = k.
Proof.
  rewrite <-first_with_key_is_Some, <-build_index_get.
  destruct (dict_get (build_index its) k) eqn:Hget.
  - split; [done|]. intros _.
    destruct (decide (k ∈ dict_keys (build_index its))) as [|Hn]; [done|].
    apply dict_get_None in Hn. congruence.
  - split; [|by intros [? ?]]. intros Hk. by apply dict_get_None in Hget.
Qed.

(** X7.  The index holds one binding for each key borne by an entry of the
    list and no other: its keys are pairwise different, a string is a key
    exactly when some entry bears it, and what is bound to a key is an entry
    of the list that bears it. *)
Theorem build_index_bindings (its : list entry) :
  NoDup (dict_keys (build_index its)) ∧
  (∀ k, k ∈ dict_keys (build_index its) ↔ ∃ e, e ∈ its ∧ entry_key e = k) ∧
  (∀ k it, dict_get (build_index its) k = Some it → it ∈ its ∧ entry_key it = k).
Proof.
  split; [apply build_index_keys_NoDup|]. split.
  - apply build_index_keys_elem.
  - intros k it. rewrite build_index_get. apply first_with_key_Some.
Qed.

Lemma build_index_bindings_witness :
  entry_10_first ∈ [entry_5; entry_10_first; entry_10_second] ∧
  entry_key entry_10_first = "3/10".
Proof.
  apply (proj2 (proj2 (build_index_bindings
                         [entry_5; entry_10_first; entry_10_second]))).
  vm_compute. reflexivity.
Defined.

(** ** Answer lines *)

Lemma format_line_key it :
  format_line it
  = entry_key it +:+ " - " +:+ fmt_opt id (petitioner it) +:+ " Vs "
    +:+ fmt_opt id (respondent it).
Proof. unfold format_line, entry_key. by rewrite !sapp_assoc. Qed.

(** X8.  Each answer of the lookup loop begins with the reference it
    answers, followed by " - ": a reference that is found is answered by the
    line of the first entry with that key, which begins with the key, and
    one that is not found by the reference and "NOT FOUND". *)
Theorem answer_begins_with_reference (its : list entry) (r : string) :
  ∃ tail, render_ref (build_index its) r = r +:+ " - " +:+ tail ∧
          match first_with_key r its with
          | Some it => tail = fmt_opt id (petitioner it) +:+ " Vs "
                             +:+ fmt_opt id (respondent it)
          | None => tail = "NOT FOUND"
          end.
Proof.
  unfold render_ref. rewrite build_index_get.
  destruct (first_with_key r its) as [it|] eqn:Hit.
  - apply first_with_key_Some in Hit as [_ <-].
    eexists. split; [apply format_line_key|done].
  - by exists "NOT FOUND".
Qed.

(** ** Dump-all and lookups *)

Lemma sorted_keys_perm `{PyFloat F} (idx : list (string * entry)) ks :
  sorted_keys idx = Some ks → ks ≡ₚ dict_keys idx.
Proof.
  unfold sorted_keys.
  destruct (mapM _ (dict_keys idx)) as [keyed|] eqn:Hkeyed; [|done].
  simpl. intros [= <-]. apply mapM_Some_1 in Hkeyed.
  destruct (keyed_list _ _ _ Hkeyed) as [<- _].
  by rewrite sort_by_perm.
Qed.

(** X9.  When the sort of the keys succeeds, dump-all raises nothing and
    prints, key by key in sorted order, exactly what a lookup of that key
    prints; every key of the index is printed once and none is reported as
    not found. *)
Theorem dump_all_as_lookups `{PyFloat F} (idx : list (string * entry))
    (ks : list string) :
  sorted_keys idx = Some ks →
  dump_all idx = Some (lookup_lines idx ks) ∧
  ks ≡ₚ dict_keys idx ∧
  Forall (fun k => is_Some (dict_get idx k)) ks.
Proof.
  intros Hks. pose proof (sorted_keys_perm idx ks Hks) as Hperm.
  assert (Hall : Forall (fun k => is_Some (dict_get idx k)) ks).
  { rewrite Forall_forall. intros k Hk. rewrite Hperm in Hk.
    by apply dict_keys_get. }
  split; [|done]. unfold dump_all. rewrite Hks. simpl.
  apply mapM_Some_2. unfold lookup_lines.
  apply Forall2_fmap_r, Forall_Forall2_diag.
  eapply Forall_impl; [exact Hall|]. intros k [it Hit]. simpl.
  unfold render_ref. by rewrite Hit.
Qed.

Lemma dump_all_as_lookups_witness :
  @dump_all Q exact_float (build_index [entry_5; entry_10_first; entry_10_second])
    = Some (lookup_lines (build_index [entry_5; entry_10_first; entry_10_second])
              ["2/5"; "3/10"]) ∧
  ["2/5"; "3/10"] ≡ₚ dict_keys (build_index [entry_5; entry_10_first; entry_10_second]) ∧
  Forall (fun k => is_Some (dict_get (build_index
            [entry_5; entry_10_first; entry_10_second]) k)) ["2/5"; "3/10"].
Proof.
  apply (@dump_all_as_lookups Q exact_float).
  vm_compute. reflexivity.
Defined.

Lemma key_fn_no_court `{PyFloat F} s : key_fn ("None" +:+ "/" +:+ s) = None.
Proof.
  unfold key_fn, split_on. change ("/" +:+ s) with (String "/" s).
  rewrite split_on_go_piece, sapp_nil_l by done.
  destruct (split_on_go "/" "" s) as [|x [|y l]]; try done.
Qed.

(** X10.  An index built from a list that holds an entry without court
    cannot be dumped: the key of that entry begins with "None", [int]
    rejects it, and the dump-all branch raises.  ([main] builds the index
    from the filtered entries, which all have a court.) *)
Theorem dump_all_needs_courts `{PyFloat F} (its : list entry) (e : entry) :
  e ∈ its → court e = None → dump_all (build_index its) = None.
Proof.
  intros He Hc.
  assert (Hk : entry_key e ∈ dict_keys (build_index its)).
  { apply build_index_keys_elem. by exists e. }
  unfold dump_all, sorted_keys.
  rewrite (proj2 (mapM_None _ _)); [done|].
  apply Exists_exists. exists (entry_key e). split; [done|].
  unfold entry_key. rewrite Hc. simpl. by rewrite key_fn_no_court.
Qed.

Lemma dump_all_needs_courts_witness :
  @dump_all Q exact_float (build_index [entry_5; entry_no_court]) = None.
Proof.
  apply (@dump_all_needs_courts Q exact_float [entry_5; entry_no_court]
           entry_no_court).
  - apply list_elem_of_further, list_elem_of_here.
  - reflexivity.
Defined.

(** ** What [strip] leaves *)

Lemma lstrip_by_head f s a r : lstrip_by f s = String a r → f a = false.
Proof.
  induction s as [|b s IH]; [done|]. simpl.
  destruct (f b) eqn:Hb; [done|]. by intros [= <- _].
Qed.

Lemma srev_snoc s a : srev (s +:+ String a "") = String a (srev s).
Proof. by rewrite srev_app. Qed.

Lemma rstrip_by_last f s r a : rstrip_by f s = r +:+ String a "" → f a = false.
Proof.
  unfold rstrip_by. intros Hs. apply (f_equal srev) in Hs.
  rewrite srev_involutive, srev_snoc in Hs. by eapply lstrip_by_head.
Qed.

Lemma strip_by_trimmed f s : trimmed f (strip_by f s).
Proof.
  unfold strip_by. split.
  - intros a r Hs.
    destruct (rstrip_by_spec f (lstrip_by f s)) as (u & Hu & _).
    rewrite Hs, sapp_cons in Hu. by eapply lstrip_by_head.
  - intros r a Hs. by eapply rstrip_by_last.
Qed.

Lemma lstrip_by_fixed f t :
  (∀ a r, t = String a r → f a = false) → lstrip_by f t = t.
Proof. destruct t as [|a r]; [done|]. intros Ht. simpl. by rewrite (Ht a r). Qed.

Lemma srev_head s a r : srev s = String a r → s = srev r +:+ String a "".
Proof.
  intros Hs. apply (f_equal srev) in Hs. by rewrite srev_involutive in Hs.
Qed.

Lemma strip_by_fixed f t : trimmed f t → strip_by f t = t.
Proof.
  intros [Hhead Hlast]. unfold strip_by, rstrip_by.
  rewrite (lstrip_by_fixed f t Hhead), lstrip_by_fixed; [apply srev_involutive|].
  intros a r Hr. apply srev_head in Hr. by eapply Hlast.
Qed.

(** X11.  The result of [smart_title] neither begins nor ends with a blank,
    a comma, a period or a hyphen, and [strip] returns a string that neither
    begins nor ends with white space; stripping such a string again changes
    nothing. *)
Theorem strip_results_trimmed (s : string) :
  trimmed outer_punct (smart_title s) ∧
  trimmed isspace (strip s) ∧
  strip (strip s) = strip s.
Proof.
  split; [apply strip_by_trimmed|]. split; [apply strip_by_trimmed|].
  apply strip_by_fixed, strip_by_trimmed.
Qed.

(** ** Casing only *)

Lemma map_chars_app f s t :
  map_chars f (s +:+ t) = map_chars f s +:+ map_chars f t.
Proof.
  induction s as [|a s IH]; [done|]. rewrite sapp_cons. simpl.
  by rewrite IH, sapp_cons.
Qed.

Lemma lower_app s t : lower (s +:+ t) = lower s +:+ lower t.
Proof. apply map_chars_app. Qed.

Lemma lower_join_blank l : lower (join " " l) = join " " (lower <$> l).
Proof.
  induction l as [|w l IH]; [done|]. destruct l as [|w' l]; [done|].
  change (join " " (w :: w' :: l)) with (w +:+ " " +:+ join " " (w' :: l)).
  rewrite !lower_app, IH. done.
Qed.

Lemma lower_title_word i w : lower (title_word i w) = lower w.
Proof.
  unfold title_word. repeat case_match; [done|apply lower_idem|].
  apply lower_capitalize_lower.
Qed.

Lemma lower_imap_title_word l : lower <$> imap title_word l = lower <$> l.
Proof.
  apply list_eq. intros i. rewrite !list_lookup_fmap, list_lookup_imap.
  destruct (l !! i); simpl; [|done]. by rewrite lower_title_word.
Qed.

Lemma srev_map_chars f s : srev (map_chars f s) = map_chars f (srev s).
Proof.
  induction s as [|a s IH]; [done|]. simpl. unfold snoc.
  by rewrite IH, map_chars_app.
Qed.

Lemma lstrip_by_map_chars f g s :
  (∀ a, f (g a) = f a) →
  lstrip_by f (map_chars g s) = map_chars g (lstrip_by f s).
Proof.
  intros Hfg. induction s as [|a s IH]; [done|]. simpl. rewrite Hfg.
  by destruct (f a).
Qed.

Lemma strip_by_map_chars f g s :
  (∀ a, f (g a) = f a) →
  strip_by f (map_chars g s) = map_chars g (strip_by f s).
Proof.
  intros Hfg. unfold strip_by, rstrip_by.
  by rewrite lstrip_by_map_chars, srev_map_chars, lstrip_by_map_chars,
    srev_map_chars.
Qed.

Lemma outer_punct_lower_char a : outer_punct (lower_char a) = outer_punct a.
Proof. by_cases_on_char a. Qed.

(** X12.  Up to letter case, [smart_title] only normalises white space and
    trims the ends: the lower-cased result is the lower-cased words of the
    input, joined by single blanks and stripped of outer blanks, commas,
    periods and hyphens.  No character is added, dropped or reordered inside
    the name. *)
Theorem smart_title_changes_case_only (s : string) :
  lower (smart_title s)
  = strip_chars " ,.-" (join " " (lower <$> split s)).
Proof.
  unfold smart_title, strip_chars, lower at 1.
  rewrite <-strip_by_map_chars by apply outer_punct_lower_char.
  f_equal. change (map_chars lower_char (title_words s)) with (lower (title_words s)).
  unfold title_words. rewrite split_normalised, lower_join_blank.
  by rewrite lower_imap_title_word.
Qed.

(** ** What a line can do to the entries *)

Lemma keeps_fields_refl e : keeps_fields e e.
Proof. by repeat split. Qed.

Lemma keeps_fields_trans e1 e2 e3 :
  keeps_fields e1 e2 → keeps_fields e2 e3 → keeps_fields e1 e3.
Proof.
  intros (Hc & Hs & Hp & Hpet & Hres) (Hc' & Hs' & Hp' & Hpet' & Hres').
  split_and!; try congruence; auto.
Qed.

Lemma entries_kept_in_refl its : entries_kept_in its its.
Proof. intros i e Hi. exists e. split; [done|apply keeps_fields_refl]. Qed.

Lemma entries_kept_in_trans its1 its2 its3 :
  entries_kept_in its1 its2 → entries_kept_in its2 its3 →
  entries_kept_in its1 its3.
Proof.
  intros H12 H23 i e Hi. destruct (H12 i e Hi) as (e2 & Hi2 & Hk2).
  destruct (H23 i e2 Hi2) as (e3 & Hi3 & Hk3).
  exists e3. split; [done|by eapply keeps_fields_trans].
Qed.

Lemma entries_kept_in_insert its i e e' :
  its !! i = Some e → keeps_fields e e' → entries_kept_in its (<[i:=e']> its).
Proof.
  intros Hi Hk j ej Hj. destruct (decide (i = j)) as [<-|Hne].
  - exists e'. rewrite list_lookup_insert_eq by (by eapply lookup_lt_Some).
    by simplify_eq.
  - exists ej. rewrite list_lookup_insert_ne by done.
    split; [done|apply keeps_fields_refl].
Qed.

Lemma fill_current_keeps line st :
  entries_kept_in (items st) (items (fill_current line st)).
Proof.
  unfold fill_current.
  destruct (current st) as [i|]; [|apply entries_kept_in_refl].
  destruct (items st !! i) as [e|] eqn:He; [|apply entries_kept_in_refl].
  destruct (is_None (petitioner e) && negb (capture_resp st)) eqn:Hp.
  { simpl. apply (entries_kept_in_insert _ _ e); [done|].
    apply andb_true_iff in Hp as [Hp _].
    destruct (petitioner e) eqn:Hpet; [done|].
    split_and!; try done. simpl. intros v. by rewrite Hpet. }
  destruct (capture_resp st && is_None (respondent e)) eqn:Hr;
    [|apply entries_kept_in_refl].
  simpl. apply (entries_kept_in_insert _ _ e); [done|].
  apply andb_true_iff in Hr as [_ Hr].
  destruct (respondent e) eqn:Hres; [done|].
  split_and!; try done. simpl. intros v. by rewrite Hres.
Qed.

Lemma step_line_keeps crt pno is_left st raw :
  entries_kept_in (items st) (items (step_line crt pno is_left st raw)).
Proof.
  unfold step_line. destruct (negb (truthy (strip raw)));
    [apply entries_kept_in_refl|].
  destruct (if is_left then pmatch SERIAL_RE (strip raw) else None) as [m|].
  - simpl. intros i e Hi. exists e. split; [|apply keeps_fields_refl].
    by apply lookup_app_l_Some.
  - destruct (is_meta_line (strip raw)); [apply entries_kept_in_refl|].
    destruct (is_match (pmatch VERSUS_RE (strip raw)));
      [apply entries_kept_in_refl|].
    destruct is_left; [apply fill_current_keeps|apply entries_kept_in_refl].
Qed.

Lemma step_block_keeps crt pno split_x st b :
  entries_kept_in (items st) (items (step_block crt pno split_x st b)).
Proof.
  unfold step_block. generalize (Qltb (b_x0 b) split_x). intros is_left.
  generalize (splitlines (b_text b)). intros ls. revert st.
  induction ls as [|l ls IH]; intros st; [apply entries_kept_in_refl|].
  simpl. eapply entries_kept_in_trans; [apply step_line_keeps|apply IH].
Qed.

(** X13.  Whatever lines a page holds, the loop over its blocks never
    removes or moves an entry, never changes a court, a serial or a page
    number, and never overwrites a petitioner or a respondent that is set:
    the first name read for a field stays. *)
Theorem page_loop_keeps_entries (crt : option Z) (pno : nat) (split_x : Q)
    (bs : list block) (st : pstate) :
  entries_kept_in (items st)
                  (items (foldl (step_block crt pno split_x) st bs)).
Proof.
  revert st. induction bs as [|b bs IH]; intros st;
    [apply entries_kept_in_refl|].
  simpl. eapply entries_kept_in_trans; [apply step_block_keeps|apply IH].
Qed.

(** ** The right column *)

Lemma step_line_right crt pno st raw :
  items (step_line crt pno false st raw) = items st ∧
  current (step_line crt pno false st raw) = current st ∧
  (capture_resp st = true → capture_resp (step_line crt pno false st raw) = true).
Proof.
  unfold step_line. destruct (negb (truthy (strip raw))); [done|].
  destruct (is_meta_line (strip raw)); [done|].
  by destruct (is_match (pmatch VERSUS_RE (strip raw))).
Qed.

(** X14.  A block that does not start left of the split never opens an
    entry and never fills a name: after it, the entries and the open entry
    are what they were.  All it can do is raise the respondent flag, by a
    "versus" line. *)
Theorem right_block_changes_no_entry (crt : option Z) (pno : nat)
    (split_x : Q) (st : pstate) (b : block) :
  Qltb (b_x0 b) split_x = false →
  items (step_block crt pno split_x st b) = items st ∧
  current (step_block crt pno split_x st b) = current st ∧
  (capture_resp st = true →
   capture_resp (step_block crt pno split_x st b) = true).
Proof.
  intros Hright. unfold step_block. rewrite Hright.
  generalize (splitlines (b_text b)). intros ls. revert st.
  induction ls as [|l ls IH]; intros st; [done|]. simpl.
  destruct (step_line_right crt pno st l) as (Hi & Hc & Hf).
  destruct (IH (step_line crt pno false st l)) as (Hi' & Hc' & Hf').
  split_and!; [congruence|congruence|auto].
Qed.

Lemma right_block_changes_no_entry_witness :
  items (step_block (Some 2%Z) 0 420 (PState [entry_8] (Some 0) false)
           (Block 430 200 590 260 "Mr. Advocate")) = [entry_8].
Proof.
  apply (right_block_changes_no_entry (Some 2%Z) 0 420
           (PState [entry_8] (Some 0) false) (Block 430 200 590 260 "Mr. Advocate")).
  reflexivity.
Defined.

(** ** Names *)

Lemma names_normalised_fill line st :
  Forall names_normalised (items st) →
  Forall names_normalised (items (fill_current line st)).
Proof.
  intros Hall. unfold fill_current.
  destruct (current st) as [i|]; [|done].
  destruct (items st !! i) as [e|] eqn:He; [|done].
  assert (He' : names_normalised e) by (by eapply (proj1 (Forall_lookup _ _) Hall)).
  destruct He' as [Hp Hr].
  destruct (is_None (petitioner e) && negb (capture_resp st)).
  { simpl. apply Forall_insert; [done|]. split; simpl; [|done].
    intros v [= <-]. by eexists. }
  destruct (capture_resp st && is_None (respondent e)); [|done].
  simpl. apply Forall_insert; [done|]. split; simpl; [done|].
  intros v [= <-]. by eexists.
Qed.

Lemma names_normalised_line crt pno is_left st raw :
  Forall names_normalised (items st) →
  Forall names_normalised (items (step_line crt pno is_left st raw)).
Proof.
  intros Hall. unfold step_line. destruct (negb (truthy (strip raw))); [done|].
  destruct (if is_left then pmatch SERIAL_RE (strip raw) else None) as [m|].
  - simpl. apply Forall_app. split; [done|]. by apply Forall_singleton.
  - destruct (is_meta_line (strip raw)); [done|].
    destruct (is_match (pmatch VERSUS_RE (strip raw))); [done|].
    destruct is_left; [by apply names_normalised_fill|done].
Qed.

Lemma names_normalised_page ds pno p :
  Forall names_normalised (d_items ds) →
  Forall names_normalised (d_items (step_page ds pno p)).
Proof.
  intros Hall. unfold step_page. simpl.
  generalize (sort_by pair_ltZ block_key (page_blocks p)). intros bs.
  assert (Hst : Forall names_normalised (items (PState (d_items ds) None false)))
    by done.
  revert Hst. generalize (PState (d_items ds) None false).
  induction bs as [|b bs IH]; intros st Hst; [done|]. simpl. apply IH.
  unfold step_block. generalize (splitlines (b_text b)). intros ls.
  revert st Hst. induction ls as [|l ls IHl]; intros st Hst; [done|].
  simpl. by apply IHl, names_normalised_line.
Qed.

Lemma names_normalised_pages ps ds pno :
  Forall names_normalised (d_items ds) →
  Forall names_normalised (d_items (run_pages ds pno ps)).
Proof.
  revert ds pno. induction ps as [|p ps IH]; intros ds pno Hall; [done|].
  simpl. by apply IH, names_normalised_page.
Qed.

(** X15.  The petitioner and the respondent of every entry that
    [parse_pdf] returns are results of [smart_title]: non-empty names that
    neither begin nor end with a blank, a comma, a period or a hyphen. *)
Theorem parse_pdf_names_clean (doc : document) (e : entry) :
  e ∈ parse_pdf doc →
  ∃ p r, petitioner e = Some p ∧ respondent e = Some r ∧
         (∃ line, p = smart_title line) ∧ (∃ line, r = smart_title line) ∧
         p ≠ "" ∧ r ≠ "" ∧ trimmed outer_punct p ∧ trimmed outer_punct r.
Proof.
  intros [He Hc]%parse_pdf_elem.
  apply complete_fields in Hc as (_ & (p & Hp & Hpne) & (r & Hr & Hrne)).
  assert (Hn : names_normalised e).
  { assert (Hall : Forall names_normalised (d_items (parse_state doc)))
      by (by apply names_normalised_pages).
    rewrite Forall_forall in Hall. by apply Hall. }
  destruct Hn as [Hnp Hnr].
  destruct (Hnp p Hp) as [lp ->]. destruct (Hnr r Hr) as [lr ->].
  exists (smart_title lp), (smart_title lr).
  split_and!; try done; try (by eexists); apply strip_by_trimmed.
Qed.

Lemma parse_pdf_names_clean_witness :
  ∃ p r, petitioner entry_5 = Some p ∧ respondent entry_5 = Some r ∧
         (∃ line, p = smart_title line) ∧ (∃ line, r = smart_title line) ∧
         p ≠ "" ∧ r ≠ "" ∧ trimmed outer_punct p ∧ trimmed outer_punct r.
Proof.
  apply (parse_pdf_names_clean [page_court2; page_plain] entry_5).
  vm_compute. apply list_elem_of_here.
Defined.

(** ** The references of the two front ends *)

Lemma clean_refs_cons x l :
  clean_refs (x :: l)
  = (if truthy (strip x) then [strip x] else []) ++ clean_refs l.
Proof.
  unfold clean_refs. rewrite fmap_cons, filter_cons.
  destruct (truthy (strip x)); by case_decide.
Qed.

Lemma clean_refs_app l1 l2 :
  clean_refs (l1 ++ l2) = clean_refs l1 ++ clean_refs l2.
Proof. unfold clean_refs. by rewrite fmap_app, filter_app. Qed.

Lemma clean_refs_elem r l :
  r ∈ clean_refs l → clean_ref r ∧ ∃ piece, piece ∈ l ∧ r = strip piece.
Proof.
  unfold clean_refs. rewrite list_elem_of_filter, list_elem_of_fmap.
  intros [Ht (piece & -> & Hin)]. split; [|by exists piece].
  split_and!.
  - intros Hr. by rewrite Hr in Ht.
  - apply strip_by_fixed, strip_by_trimmed.
  - apply strip_by_trimmed.
Qed.

Lemma main_req_elem a r : r ∈ main_req a → clean_ref r.
Proof.
  unfold main_req. rewrite elem_of_app. intros [Hr|Hr].
  - destruct (a_refs a) as [s|]; [|by apply elem_of_nil in Hr].
    destruct (truthy s); [|by apply elem_of_nil in Hr].
    by apply clean_refs_elem in Hr as [? _].
  - destruct (a_refs_file a) as [t|]; [|by apply elem_of_nil in Hr].
    destruct (truthy t); [|by apply elem_of_nil in Hr].
    by apply clean_refs_elem in Hr as [? _].
Qed.

(** X16.  Without [--dump-all], [main] never raises.  It exits with
    status 1 exactly when no reference is left after the pieces of
    [--refs] and the lines of the file are stripped and the empty ones
    dropped; otherwise it returns, having printed one line for each
    reference, and every reference it looks up is non-empty and has no
    white space at either end.  The same holds of the references of the
    web front end. *)
Theorem main_lookup_outcome `{PyFloat F} (a : args) :
  a_dump_all a = false →
  Forall clean_ref (main_req a) ∧
  (∀ refs, Forall clean_ref (query_refs refs)) ∧
  main a ≠ Raised ∧
  (main_req a = [] →
   main a = SysExit ["Provide --refs or --refs-file or use --dump-all"] 1) ∧
  (main_req a ≠ [] →
   ∃ printed, main a = Returned printed ∧
              length printed = length (main_req a)).
Proof.
  intros Hd. split_and!.
  - apply Forall_forall. intros r. apply main_req_elem.
  - intros refs. apply Forall_forall. intros r Hr.
    by apply clean_refs_elem in Hr as [? _].
  - unfold main. rewrite Hd. by destruct (main_req a).
  - unfold main. rewrite Hd. by intros ->.
  - unfold main. rewrite Hd. intros Hne.
    destruct (main_req a) as [|r req] eqn:Hreq; [done|].
    eexists. split; [done|]. unfold lookup_lines. by rewrite length_fmap.
Qed.

Lemma main_lookup_outcome_witness :
  Forall clean_ref (main_req (Args [page_court2] (Some " 2/5 ,, 2/9") None false)) ∧
  main (F := Q) (H := exact_float)
       (Args [page_court2] (Some " 2/5 ,, 2/9") None false) ≠ Raised.
Proof.
  destruct (main_lookup_outcome (F := Q) (H := exact_float)
              (Args [page_court2] (Some " 2/5 ,, 2/9") None false) eq_refl)
    as (Hall & _ & Hraise & _).
  by split.
Defined.

Lemma commas_to_newlines_id t :
  contains_char "," t = false → commas_to_newlines t = t.
Proof.
  induction t as [|a t IH]; [done|]. rewrite contains_char_cons.
  intros [Ha Ht]%orb_false_iff. unfold commas_to_newlines in *. simpl.
  rewrite Ascii.eqb_sym, Ha. by rewrite IH.
Qed.

Lemma splitlines_go_lf cur u :
  splitlines_go cur (String "010" u) = cur :: splitlines_go "" u.
Proof. by destruct u. Qed.

Lemma splitlines_go_other cur a u :
  islinebreak a = false →
  splitlines_go cur (String a u) = splitlines_go (snoc cur a) u.
Proof. intros Ha. simpl. by rewrite Ha. Qed.

Lemma split_on_go_cons sep cur a u :
  split_on_go sep cur (String a u)
  = if Ascii.eqb a sep then cur :: split_on_go sep "" u
    else split_on_go sep (snoc cur a) u.
Proof. reflexivity. Qed.

Lemma commas_to_newlines_cons a u :
  commas_to_newlines (String a u)
  = String (if Ascii.eqb a "," then "010"%char else a) (commas_to_newlines u).
Proof. reflexivity. Qed.

(** Cutting a one-line text at its commas and cutting it, the commas made
    newlines, at the line boundaries leave the same references; a text
    appended on a new line adds its own lines. *)
Lemma query_pieces cur s t :
  one_line s →
  clean_refs (splitlines_go cur (commas_to_newlines s +:+ String "010" t))
  = clean_refs (split_on_go "," cur s) ++ clean_refs (splitlines t).
Proof.
  unfold one_line. revert cur. induction s as [|a s IH]; intros cur Hs.
  - change (commas_to_newlines "") with "". rewrite sapp_nil_l.
    rewrite splitlines_go_lf. change (split_on_go "," cur "") with [cur].
    by rewrite !clean_refs_cons, <-app_assoc.
  - simpl in Hs. apply andb_true_iff in Hs as [Ha Hs].
    apply negb_true_iff in Ha.
    rewrite commas_to_newlines_cons, sapp_cons, split_on_go_cons.
    destruct (Ascii.eqb a ",") eqn:Hc.
    + rewrite splitlines_go_lf, !clean_refs_cons, <-app_assoc.
      f_equal. by apply IH.
    + rewrite splitlines_go_other by done. by apply IH.
Qed.

Lemma query_pieces_end cur s :
  one_line s →
  clean_refs (splitlines_go cur (commas_to_newlines s))
  = clean_refs (split_on_go "," cur s).
Proof.
  unfold one_line. revert cur. induction s as [|a s IH]; intros cur Hs.
  - change (commas_to_newlines "") with "".
    change (split_on_go "," cur "") with [cur]. rewrite clean_refs_cons.
    destruct cur as [|c cur]; [by vm_compute|].
    change (splitlines_go (String c cur) "") with [String c cur].
    by rewrite clean_refs_cons.
  - simpl in Hs. apply andb_true_iff in Hs as [Ha Hs].
    apply negb_true_iff in Ha.
    rewrite commas_to_newlines_cons, split_on_go_cons.
    destruct (Ascii.eqb a ",") eqn:Hc.
    + rewrite splitlines_go_lf, !clean_refs_cons. f_equal. by apply IH.
    + rewrite splitlines_go_other by done. by apply IH.
Qed.

Lemma req_of_refs s : (if truthy s then clean_refs (split_on "," s) else [])
                      = clean_refs (split_on "," s).
Proof. by destruct s. Qed.

Lemma req_of_file t : (if truthy t then clean_refs (splitlines t) else [])
                      = clean_refs (splitlines t).
Proof. by destruct t. Qed.

(** X17.  The two front ends look up the same references.  For a
    [--refs] text without line boundary and a file text without comma,
    the list [req] of [main] is the list [query_refs] of the web page
    given the same text: the [--refs] text alone, the file text alone, or
    the [--refs] text with the file text below it.  So, where this list is
    not empty, [main] prints the lines that the web page shows. *)
Theorem front_ends_same_references `{PyFloat F} (doc : document)
    (refs t : string) :
  one_line refs → contains_char "," t = false →
  main_req (Args doc (Some refs) None false) = query_refs refs ∧
  main_req (Args doc None (Some t) false) = query_refs t ∧
  main_req (Args doc (Some refs) (Some t) false)
  = query_refs (refs +:+ String "010" t) ∧
  (query_refs refs ≠ [] →
   main (Args doc (Some refs) None false) = Returned (app_lines doc refs)).
Proof.
  intros Hone Hcomma.
  assert (H1 : main_req (Args doc (Some refs) None false) = query_refs refs).
  { unfold main_req, query_refs, splitlines, split_on. simpl.
    rewrite app_nil_r, req_of_refs. symmetry. by apply query_pieces_end. }
  split_and!; [done| | |].
  - unfold main_req, query_refs. simpl.
    by rewrite req_of_file, commas_to_newlines_id.
  - unfold main_req, query_refs. cbn [a_refs a_refs_file].
    rewrite req_of_refs, req_of_file.
    replace (commas_to_newlines (refs +:+ String "010" t))
      with (commas_to_newlines refs +:+ String "010" t).
    { symmetry. by apply query_pieces. }
    unfold commas_to_newlines at 2. rewrite map_chars_app.
    fold (commas_to_newlines refs). f_equal. symmetry.
    apply (commas_to_newlines_id (String "010" t)).
    by rewrite contains_char_cons, Hcomma.
  - intros Hne. unfold main. simpl a_dump_all. cbv iota. rewrite H1.
    unfold app_lines. by destruct (query_refs refs).
Qed.

Lemma front_ends_same_references_witness :
  main_req (Args [page_court2] (Some "2/5, 2/9") (Some "2/7") false)
  = query_refs ("2/5, 2/9" +:+ String "010" "2/7").
Proof.
  apply (front_ends_same_references (F := Q) (H := exact_float)
           [page_court2] "2/5, 2/9" "2/7"); reflexivity.
Defined.

(** ** Meta lines *)

Lemma search_from_complete r pre s pv :
  is_Some (run r accept (Pos (last_char pre pv) s) []) →
  is_Some (search_from r pv (pre +:+ s)).
Proof.
  revert pv. induction pre as [|a pre IH]; intros pv Hrun.
  - rewrite sapp_nil_l. simpl in Hrun. destruct Hrun as [m Hm].
    destruct s; simpl; by rewrite Hm.
  - rewrite sapp_cons. simpl.
    destruct (run r accept (Pos pv (String a (pre +:+ s))) []); [done|].
    by apply IH.
Qed.

Lemma lower_nil_inv w : lower w = "" → w = "".
Proof. by destruct w. Qed.

Lemma matches_istr h w pv r c :
  lower w = lower h →
  matches (istr h) (Pos pv (w +:+ r)) c (Pos (last_char w pv) r) c.
Proof.
  revert w pv. induction h as [|b h IH]; intros w pv Hw.
  - apply lower_nil_inv in Hw as ->. constructor.
  - destruct w as [|a w]; [done|]. injection Hw as Ha Hw.
    rewrite sapp_cons. simpl. eapply M_Seq; [|by apply IH].
    constructor. rewrite Ha. apply Ascii.eqb_refl.
Qed.

Lemma matches_alts r l p c p' c' :
  r ∈ l → matches r p c p' c' → matches (alts l) p c p' c'.
Proof.
  intros Hin Hm. induction l as [|r1 l IH]; [by apply elem_of_nil in Hin|].
  destruct l as [|r2 l].
  - apply list_elem_of_singleton in Hin as <-. done.
  - change (alts (r1 :: r2 :: l)) with (Alt r1 (alts (r2 :: l))).
    apply elem_of_cons in Hin as [<-|Hin]; [by apply M_Alt_l|].
    apply M_Alt_r. by apply IH.
Qed.

Lemma heading_phrase_found h w pre post :
  h ∈ heading_phrases → lower w = lower h →
  is_match (search IGNORE_HEAD (pre +:+ w +:+ post)) = true.
Proof.
  intros Hh Hw.
  assert (Hs : is_Some (search IGNORE_HEAD (pre +:+ w +:+ post))).
  { apply search_from_complete.
    apply (run_complete IGNORE_HEAD accept _ _
             (Pos (last_char w (last_char pre None)) post) []); [|done].
    unfold IGNORE_HEAD. apply (matches_alts (istr h)); [|by apply matches_istr].
    unfold heading_phrases in Hh.
    repeat (apply elem_of_cons in Hh as [->|Hh]; [repeat constructor|]).
    by apply elem_of_nil in Hh. }
  by destruct Hs as [m ->].
Qed.

(** A meta line changes the state only as a serial marker of the left
    column. *)
Lemma meta_line_step crt pno is_left st raw :
  is_meta_line (strip raw) = true →
  step_line crt pno is_left st raw = st ∨
  ∃ tok, is_left = true ∧ step_line crt pno is_left st raw = opened crt pno st tok.
Proof.
  intros Hmeta. unfold step_line. destruct (negb (truthy (strip raw))); [by left|].
  destruct is_left.
  - destruct (pmatch SERIAL_RE (strip raw)) as [m|].
    + right. by exists (mgroup 1 m).
    + left. by rewrite Hmeta.
  - left. by rewrite Hmeta.
Qed.

(** X18.  A line that contains one of the heading phrases, in any letter
    case and at any place, also inside a word, is a meta line: in the
    right column it changes nothing, and in the left column it opens an
    entry if it is a serial marker and changes nothing otherwise.  It
    never becomes the name of a party. *)
Theorem heading_phrase_is_meta (h w pre post raw : string) (crt : option Z)
    (pno : nat) (is_left : bool) (st : pstate) :
  h ∈ heading_phrases → lower w = lower h →
  strip raw = pre +:+ w +:+ post →
  is_meta_line (strip raw) = true ∧
  (step_line crt pno is_left st raw = st ∨
   ∃ tok, is_left = true ∧
          step_line crt pno is_left st raw = opened crt pno st tok).
Proof.
  intros Hh Hw Hraw.
  assert (Hmeta : is_meta_line (strip raw) = true).
  { unfold is_meta_line. by rewrite Hraw, (heading_phrase_found h). }
  split; [done|by apply meta_line_step].
Qed.

Lemma heading_phrase_is_meta_witness :
  is_meta_line (strip "Keynote Systems Ltd.") = true ∧
  (step_line (Some 2%Z) 0 true (PState [entry_8] (Some 0) false)
     "Keynote Systems Ltd." = PState [entry_8] (Some 0) false ∨
   ∃ tok, true = true ∧
          step_line (Some 2%Z) 0 true (PState [entry_8] (Some 0) false)
            "Keynote Systems Ltd."
          = opened (Some 2%Z) 0 (PState [entry_8] (Some 0) false) tok).
Proof.
  apply (heading_phrase_is_meta "NOTE" "note" "Key" " Systems Ltd.").
  - unfold heading_phrases. repeat constructor.
  - reflexivity.
  - vm_compute. reflexivity.
Defined.

Lemma digit_or_punct_no_space a : digit_or_punct a = true → isspace a = false.
Proof. destruct a as [[] [] [] [] [] [] [] []]; vm_compute; congruence. Qed.

Lemma forallb_chars_trimmed f g s :
  (∀ a, f a = true → g a = false) → forallb_chars f s = true → trimmed g s.
Proof.
  intros Hfg Hs. split.
  - intros a r ->. simpl in Hs. apply andb_true_iff in Hs as [Ha _]. auto.
  - intros r a ->. rewrite forallb_chars_app in Hs.
    apply andb_true_iff in Hs as [_ Ha]. simpl in Ha.
    rewrite andb_true_r in Ha. auto.
Qed.

Lemma fullmatch_plus_chr f s :
  is_match (fullmatch (Plus (Chr f)) s) = true
  ↔ s ≠ "" ∧ forallb_chars f s = true.
Proof.
  split.
  - unfold fullmatch. destruct (run _ _ _ _) as [m|] eqn:Hrun; [|done].
    intros _. apply run_sound in Hrun as (p' & c' & Hm & Hk).
    unfold accept_at_end in Hk. destruct (rest p') eqn:Hrest; [|done].
    inversion Hm as [| |r1 r2 p c p1 c1 p2 c2 Hm1 Hm2| | | | | | | |]; subst.
    apply matches_chr_inv in Hm1 as (a & Ha & [Hadv _] & _).
    apply matches_star_chr_inv in Hm2 as (t & Ht & [Hadv' _] & _).
    simpl in Hadv. rewrite Hadv' , Hrest, sapp_nil_r in Hadv.
    rewrite sapp_cons, sapp_nil_l in Hadv. subst s.
    split; [done|]. simpl. by rewrite Ha.
  - intros [Hne Hs]. destruct s as [|a s]; [done|]. simpl in Hs.
    apply andb_true_iff in Hs as [Ha Hs].
    assert (Hrun : is_Some (fullmatch (Plus (Chr f)) (String a s))).
    { unfold fullmatch.
      apply (run_complete _ accept_at_end _ _ (Pos (last_char s (Some a)) "") []);
        [|done].
      eapply M_Seq; [by constructor|].
      rewrite <-(sapp_nil_r s) at 1. by apply matches_star_chr. }
    by destruct Hrun as [m ->].
Qed.

(** X19.  A non-empty line written with digits and the characters
    [/ ( ) . -] only is a meta line, and no other line matches the
    pattern of that rule.  Such a line never becomes the name of a party:
    it changes nothing, unless it is a serial marker of the left column. *)
Theorem digits_punct_line_is_meta (s : string) (crt : option Z) (pno : nat)
    (is_left : bool) (st : pstate) :
  s ≠ "" → forallb_chars digit_or_punct s = true →
  (∀ t, is_match (fullmatch DIGITS_PUNCT_RE t) = true
        ↔ t ≠ "" ∧ forallb_chars digit_or_punct t = true) ∧
  is_meta_line s = true ∧
  (step_line crt pno is_left st s = st ∨
   ∃ tok, is_left = true ∧
          step_line crt pno is_left st s = opened crt pno st tok).
Proof.
  intros Hne Hs.
  assert (Hfull : ∀ t, is_match (fullmatch DIGITS_PUNCT_RE t) = true
                       ↔ t ≠ "" ∧ forallb_chars digit_or_punct t = true)
    by (intros t; apply fullmatch_plus_chr).
  assert (Hmeta : is_meta_line s = true).
  { unfold is_meta_line. rewrite (proj2 (Hfull s)) by done.
    by repeat destruct (is_match _). }
  assert (Hstrip : strip s = s).
  { apply strip_by_fixed.
    apply (forallb_chars_trimmed digit_or_punct); [|done].
    apply digit_or_punct_no_space. }
  split_and!; [done..|]. apply meta_line_step. by rewrite Hstrip.
Qed.

Lemma digits_punct_line_is_meta_witness :
  is_meta_line "(2024)-11/3" = true.
Proof.
  apply (digits_punct_line_is_meta "(2024)-11/3" None 0 false (PState [] None false));
    reflexivity || done.
Defined.

(** ** The "versus" line *)

Lemma matches_istr_inv h p c p' c' :
  matches (istr h) p c p' c' →
  ∃ w, lower w = lower h ∧ advance p w p' ∧ c' = c.
Proof.
  revert p. induction h as [|b h IH]; intros p Hm; simpl in Hm.
  - inversion Hm; subst. exists "". split; [done|]. split; [apply advance_refl|done].
  - inversion Hm as [| |? ? ? ? p1 c1 ? ? Hc Hr| | | | | | | |]; subst.
    apply matches_chr_inv in Hc as (a & Ha & Hadv & ->).
    apply IH in Hr as (w & Hw & Hadv' & ->).
    apply Ascii.eqb_eq in Ha.
    exists (String a w). split; [|split; [|done]].
    + unfold lower in *. simpl. by rewrite Hw, Ha.
    + by apply (advance_trans _ _ _ _ _ Hadv Hadv').
Qed.

Lemma matches_opt_lit_inv a p c p' c' :
  matches (Opt (lit a)) p c p' c' →
  ∃ d, (d = "" ∨ d = String a "") ∧ advance p d p' ∧ c' = c.
Proof.
  inversion 1 as [| | |? ? ? ? ? ? Hl|? ? ? ? ? ? Hr| | | | | |]; subst.
  - apply matches_chr_inv in Hl as (b & Hb & Hadv & ->).
    apply Ascii.eqb_eq in Hb as <-. exists (String a ""). by split; [right|].
  - inversion Hr; subst. exists "". split; [by left|].
    split; [apply advance_refl|done].
Qed.

Lemma is_lf_eq a : is_lf a = true → a = "010"%char.
Proof. destruct a as [[] [] [] [] [] [] [] []]; vm_compute; congruence. Qed.

Lemma lower_char_period a : lower_char a = "."%char → a = "."%char.
Proof. destruct a as [[] [] [] [] [] [] [] []]; vm_compute; congruence. Qed.

Lemma at_eol_rest p :
  at_eol p = true → forallb_chars isspace (rest p) = true.
Proof.
  unfold at_eol. destruct (rest p) as [|a [|b r]]; [done| |done].
  by intros ->%is_lf_eq.
Qed.

Lemma versus_match_sound line :
  is_match (pmatch VERSUS_RE line) = true → versus_shape line.
Proof.
  unfold pmatch. destruct (run _ _ _ _) as [m|] eqn:Hrun; [|done]. intros _.
  apply run_sound in Hrun as (p' & c' & Hm & _). cbv [VERSUS_RE seqs] in Hm.
  inversion Hm as [| |? ? ? ? p0 c0 ? ? Hbol Hm1| | | | | | | |]; subst.
  inversion Hbol; subst.
  inversion Hm1 as [| |? ? ? ? p1 c1 ? ? Hsp Hm2| | | | | | | |]; subst.
  apply matches_star_chr_inv in Hsp as (ws1 & Hws1 & [Hadv1 _] & ->).
  inversion Hm2 as [| |? ? ? ? p2 c2 ? ? Hw Hm3| | | | | | | |]; subst.
  apply (matches_istr_inv "versus") in Hw as (w & Hw & [Hadv2 _] & ->).
  inversion Hm3 as [| |? ? ? ? p3 c3 ? ? Hdot Hm4| | | | | | | |]; subst.
  apply matches_opt_lit_inv in Hdot as (d & Hd & [Hadv3 _] & ->).
  inversion Hm4 as [| |? ? ? ? p4 c4 ? ? Hsp2 Heol| | | | | | | |]; subst.
  apply matches_star_chr_inv in Hsp2 as (ws2 & Hws2 & [Hadv4 _] & ->).
  inversion Heol as [| | | | | | | |? ? Hend| |]; subst.
  apply at_eol_rest in Hend.
  exists ws1, w, d, (ws2 +:+ rest p'). split_and!; [|done..|].
  - simpl in Hadv1. by rewrite Hadv1, Hadv2, Hadv3, Hadv4.
  - by rewrite forallb_chars_app, Hws2, Hend.
Qed.

Lemma versus_match_complete line :
  versus_shape line → is_match (pmatch VERSUS_RE line) = true.
Proof.
  intros (ws1 & w & dot & ws2 & -> & Hws1 & Hw & Hdot & Hws2).
  assert (Hrun : is_Some (pmatch VERSUS_RE (ws1 +:+ w +:+ dot +:+ ws2))).
  { unfold pmatch.
    apply (run_complete VERSUS_RE accept _ _
             (Pos (last_char ws2 (last_char dot (last_char w (last_char ws1 None))))
                  "") []); [|done].
    cbv [VERSUS_RE seqs].
    eapply M_Seq; [constructor|].
    eapply M_Seq; [by apply matches_star_chr|].
    eapply M_Seq; [by apply matches_istr|].
    destruct Hdot as [->| ->].
    - rewrite sapp_nil_l. eapply M_Seq; [apply M_Alt_r; constructor|].
      eapply M_Seq; [|by constructor].
      simpl. rewrite <-(sapp_nil_r ws2) at 1. by apply matches_star_chr.
    - rewrite sapp_cons, sapp_nil_l.
      eapply M_Seq; [apply M_Alt_l; by constructor|].
      eapply M_Seq; [|by constructor].
      simpl. rewrite <-(sapp_nil_r ws2) at 1. by apply matches_star_chr. }
  by destruct Hrun as [m ->].
Qed.

Lemma lower_before_period t line :
  lower line = t +:+ "." → ∃ w, line = w +:+ "." ∧ lower w = t.
Proof.
  revert line. induction t as [|b t IH]; intros line Hl.
  - rewrite sapp_nil_l in Hl. destruct line as [|a [|a' line]]; [done| |done].
    injection Hl as ->%lower_char_period. by exists "".
  - rewrite sapp_cons in Hl. destruct line as [|a line]; [done|].
    injection Hl as Ha Hl. apply IH in Hl as (w & -> & Hw).
    exists (String a w). split; [done|]. unfold lower in *. simpl.
    by rewrite Ha, Hw.
Qed.

Lemma last_char_decompose s :
  s ≠ "" → ∃ r a, s = r +:+ String a "".
Proof.
  induction s as [|a s IH]; [done|]. intros _. destruct s as [|b s].
  - by exists "", a.
  - destruct IH as (r & c & Hs); [done|]. exists (String a r), c.
    by rewrite sapp_cons, <-Hs.
Qed.

Lemma spaces_before_trimmed ws r :
  forallb_chars isspace ws = true → r ≠ "" →
  trimmed isspace (ws +:+ r) → ws = "".
Proof.
  intros Hws Hr [Hhead _]. destruct ws as [|a ws]; [done|].
  simpl in Hws. apply andb_true_iff in Hws as [Ha _].
  rewrite sapp_cons in Hhead. by rewrite (Hhead a _ eq_refl) in Ha.
Qed.

Lemma spaces_after_trimmed r ws :
  forallb_chars isspace ws = true →
  trimmed isspace (r +:+ ws) → ws = "".
Proof.
  intros Hws [_ Hlast]. destruct (decide (ws = "")) as [|Hne]; [done|].
  destruct (last_char_decompose ws Hne) as (u & a & ->).
  rewrite forallb_chars_app in Hws. apply andb_true_iff in Hws as [_ Ha].
  simpl in Ha. rewrite andb_true_r in Ha.
  rewrite <-sapp_assoc in Hlast. by rewrite (Hlast _ a eq_refl) in Ha.
Qed.

(** X20.  A line matches the "versus" pattern exactly when it is the word
    "versus", in any letter case, with or without a period after it and
    with white space at most around it.  The parser tests stripped lines:
    for them the test holds exactly when the line, lower-cased, is
    "versus" or "versus." *)
Theorem versus_line_shape (raw : string) :
  (∀ line, is_match (pmatch VERSUS_RE line) = true ↔ versus_shape line) ∧
  (is_match (pmatch VERSUS_RE (strip raw)) = true
   ↔ lower (strip raw) = "versus" ∨ lower (strip raw) = "versus.").
Proof.
  assert (Hiff : ∀ line, is_match (pmatch VERSUS_RE line) = true
                         ↔ versus_shape line).
  { intros line. split; [apply versus_match_sound|apply versus_match_complete]. }
  split; [done|]. rewrite Hiff. split.
  - intros (ws1 & w & dot & ws2 & Hl & Hws1 & Hw & Hdot & Hws2).
    pose proof (strip_by_trimmed isspace raw) as Htrim.
    fold (strip raw) in Htrim. rewrite Hl in Htrim |- *.
    assert (Hwne : w ≠ "") by (by intros ->).
    assert (ws1 = "") as ->.
    { apply (spaces_before_trimmed _ (w +:+ dot +:+ ws2)); [done| |done].
      destruct w; [done|by rewrite sapp_cons]. }
    rewrite sapp_nil_l in Htrim |- *.
    assert (ws2 = "") as ->.
    { apply (spaces_after_trimmed (w +:+ dot)); [done|].
      by rewrite sapp_assoc. }
    rewrite sapp_nil_r, lower_app, Hw.
    destruct Hdot as [->| ->]; [by left|by right].
  - intros [Hl|Hl].
    + exists "", (strip raw), "", "". rewrite sapp_nil_l, sapp_nil_r.
      by split_and!; [|..|left|].
    + apply (lower_before_period "versus") in Hl as (w & Hraw & Hw).
      exists "", w, ".", "". rewrite sapp_nil_l.
      by split_and!; [|..|right|].
Qed.

Lemma no_respondent_line crt pno is_left st raw :
  is_match (pmatch VERSUS_RE (strip raw)) = false →
  no_respondent st → no_respondent (step_line crt pno is_left st raw).
Proof.
  intros Hv [Hc Hall]. unfold step_line.
  destruct (negb (truthy (strip raw))); [done|].
  destruct (if is_left then pmatch SERIAL_RE (strip raw) else None) as [m|].
  { split; [done|]. simpl. apply Forall_app. split; [done|].
    by apply Forall_singleton. }
  destruct (is_meta_line (strip raw)); [done|]. rewrite Hv.
  destruct is_left; [|done]. unfold fill_current.
  destruct (current st) as [i|]; [|done].
  destruct (items st !! i) as [e|] eqn:He; [|done].
  rewrite Hc. cbn [negb andb]. rewrite andb_true_r.
  destruct (is_None (petitioner e)); [|done].
  split; [done|]. simpl. apply Forall_insert; [done|]. simpl.
  by eapply (proj1 (Forall_lookup _ _) Hall).
Qed.

Lemma no_respondent_lines crt pno is_left ls st :
  Forall (fun raw => is_match (pmatch VERSUS_RE (strip raw)) = false) ls →
  no_respondent st → no_respondent (foldl (step_line crt pno is_left) st ls).
Proof.
  intros Hls. revert st. induction Hls as [|l ls Hl _ IH]; intros st Hst; [done|].
  simpl. by apply IH, no_respondent_line.
Qed.

Lemma no_respondent_blocks crt pno split_x bs st :
  Forall (fun b => Forall (fun raw => is_match (pmatch VERSUS_RE (strip raw)) = false)
                     (splitlines (b_text b))) bs →
  no_respondent st → no_respondent (foldl (step_block crt pno split_x) st bs).
Proof.
  intros Hbs. revert st. induction Hbs as [|b bs Hb _ IH]; intros st Hst; [done|].
  simpl. apply IH. unfold step_block. by apply no_respondent_lines.
Qed.

Lemma no_respondent_page ds pno p :
  no_versus_line p →
  Forall (fun e => respondent e = None) (d_items ds) →
  Forall (fun e => respondent e = None) (d_items (step_page ds pno p)).
Proof.
  intros Hp Hds. unfold step_page. simpl.
  apply no_respondent_blocks; [|done].
  apply Forall_forall. intros b Hb. apply Forall_forall. intros raw Hraw.
  apply (Hp b raw); [|done]. by rewrite sort_by_perm in Hb.
Qed.

Lemma no_respondent_pages ps ds pno :
  Forall no_versus_line ps →
  Forall (fun e => respondent e = None) (d_items ds) →
  Forall (fun e => respondent e = None) (d_items (run_pages ds pno ps)).
Proof.
  intros Hps. revert ds pno.
  induction Hps as [|p ps Hp _ IH]; intros ds pno Hds; [done|].
  simpl. by apply IH, no_respondent_page.
Qed.

(** X21.  Only a "versus" line makes the parser read a respondent.  In a
    document none of whose lines is a "versus" line, no entry ever gets a
    respondent, so [parse_pdf] returns no entry at all, whatever serial
    markers and names the pages hold. *)
Theorem no_versus_no_entry (doc : document) :
  Forall no_versus_line doc →
  Forall (fun e => respondent e = None) (d_items (parse_state doc)) ∧
  parse_pdf doc = [].
Proof.
  intros Hdoc.
  assert (Hall : Forall (fun e => respondent e = None) (d_items (parse_state doc)))
    by (by apply no_respondent_pages).
  split; [done|]. unfold parse_pdf.
  induction Hall as [|e l He _ IH]; [done|].
  rewrite filter_cons. case_decide as Hc; [|done].
  unfold complete in Hc. rewrite He in Hc. simpl in Hc.
  by rewrite andb_false_r in Hc.
Qed.

Lemma no_versus_no_entry_witness : parse_pdf [page_vs] = [].
Proof.
  apply (no_versus_no_entry [page_vs]). apply Forall_singleton.
  intros b raw Hb Hraw. cbv [page_vs one_block_page page_blocks] in Hb.
  repeat (apply elem_of_cons in Hb as [->|Hb]);
    [| |by apply elem_of_nil in Hb].
  - vm_compute in Hraw.
    repeat (apply elem_of_cons in Hraw as [->|Hraw]);
      [vm_compute; reflexivity..|by apply elem_of_nil in Hraw].
  - vm_compute in Hraw.
    repeat (apply elem_of_cons in Hraw as [->|Hraw]);
      [vm_compute; reflexivity..|by apply elem_of_nil in Hraw].
Defined.

(** ** The column split *)









(** ** The order of the blocks *)

Section SortedInput.
Context {A K : Type} (lt : K → K → bool) (key : A → K).

Lemma insert_by_last x l :
  (∀ y, y ∈ l → lt (key x) (key y) = false) → insert_by lt key x l = l ++ [x].
Proof.
  induction l as [|y l IH]; intros Hall; [done|]. simpl.
  rewrite (Hall y) by apply list_elem_of_here. f_equal.
  apply IH. intros z Hz. by apply Hall, list_elem_of_further.
Qed.

Lemma sort_by_ordered_input l : ordered_by lt key l → sort_by lt key l = l.
Proof.
  unfold sort_by. rewrite <-(app_nil_l l) at 1 3. generalize (@nil A).
  induction l as [|x l IH]; intros acc Hord; [by rewrite app_nil_r|].
  simpl. rewrite insert_by_last.
  - rewrite IH; rewrite <-app_assoc; done.
  - intros y Hy.
    apply (StronglySorted_app_1_elem_of _ acc (x :: l) y x Hord Hy).
    apply list_elem_of_here.
Qed.
End SortedInput.

Lemma pair_ltZ_irrefl a : pair_ltZ a a = false.
Proof. unfold pair_ltZ. rewrite !Z.ltb_irrefl. by rewrite andb_false_r. Qed.

Lemma pair_ltZ_spec a b :
  pair_ltZ a b = true ↔ (a.1 < b.1 ∨ (a.1 = b.1 ∧ a.2 < b.2))%Z.
Proof.
  unfold pair_ltZ.
  rewrite orb_true_iff, andb_true_iff, !Z.ltb_lt, Z.eqb_eq. done.
Qed.

Lemma pair_ltZ_trans a b c :
  pair_ltZ a b = true → pair_ltZ b c = true → pair_ltZ a c = true.
Proof. rewrite !pair_ltZ_spec. lia. Qed.

(** X23.  The blocks of a page are read in the order of their top edges
    rounded to a tenth, blocks with the same rounded top edge in the order
    of their rounded left edges: the sorted list holds the blocks of the
    page, each as often as the page does, and of two blocks the later one
    is never above the earlier one, nor left of it on the same line. *)
Theorem blocks_in_reading_order (p : page) (i j : nat) (b b' : block) :
  i < j →
  sort_by pair_ltZ block_key (page_blocks p) !! i = Some b →
  sort_by pair_ltZ block_key (page_blocks p) !! j = Some b' →
  sort_by pair_ltZ block_key (page_blocks p) ≡ₚ page_blocks p ∧
  (round1 (b_y0 b) ≤ round1 (b_y0 b'))%Z ∧
  (round1 (b_y0 b) = round1 (b_y0 b') → round1 (b_x0 b) ≤ round1 (b_x0 b'))%Z.
Proof.
  intros Hij Hi Hj. split; [apply sort_by_perm|].
  assert (Hlt : pair_ltZ (block_key b') (block_key b) = false).
  { apply (ordered_by_lookup pair_ltZ block_key
             (sort_by pair_ltZ block_key (page_blocks p)) i j); [|done..].
    apply sort_by_ordered; [apply pair_ltZ_irrefl|apply pair_ltZ_trans]. }
  apply not_true_iff_false in Hlt. rewrite pair_ltZ_spec in Hlt.
  unfold block_key in Hlt. simpl in Hlt. lia.
Qed.

Lemma blocks_in_reading_order_witness :
  (round1 50 ≤ round1 200)%Z.
Proof.
  apply (blocks_in_reading_order page_court2 0 1
           (Block 40 50 300 70 "COURT NO. 2")
           (Block 40 200 300 260
              (join nl ["5"; "Petitioner One"; "versus"; "Respondent One"])));
    [lia|reflexivity..].
Defined.

(** X24.  The sort is stable, so a page whose blocks already come in
    reading order is read as it is: sorting changes nothing, and blocks
    with the same rounded top and left edges keep their order. *)
Theorem ordered_blocks_read_as_given (p : page) :
  ordered_by pair_ltZ block_key (page_blocks p) →
  sort_by pair_ltZ block_key (page_blocks p) = page_blocks p.
Proof. apply sort_by_ordered_input. Qed.

Lemma ordered_blocks_read_as_given_witness :
  sort_by pair_ltZ block_key (page_blocks page_court2) = page_blocks page_court2.
Proof.
  apply (ordered_blocks_read_as_given page_court2).
  unfold ordered_by, page_court2, one_block_page. simpl.
  repeat constructor.
Defined.

(** ** The header band *)

(** X25.  The loop over the blocks in [detect_court_number] takes them in
    the order of the page and ends at the first block whose bottom edge is
    below 180: what comes after it in the list is not looked at, not even
    a block of the header band that names a court. *)
Theorem header_scan_stops (txt : string) (bs1 bs2 : list block) (b : block)
    (ws : list word) (w h : Q) :
  Qltb 180 (b_y1 b) = true →
  scan_header_blocks (bs1 ++ b :: bs2) = scan_header_blocks bs1 ∧
  detect_court_number (Page txt (bs1 ++ b :: bs2) ws w h)
  = detect_court_number (Page txt bs1 ws w h).
Proof.
  intros Hlow.
  assert (Hscan : scan_header_blocks (bs1 ++ b :: bs2) = scan_header_blocks bs1).
  { induction bs1 as [|b1 bs1 IH]; simpl; [by rewrite Hlow|].
    destruct (Qltb 180 (b_y1 b1)); [done|].
    destruct (is_match (search CHIEF_JUSTICE_RE (b_text b1))); [done|].
    by destruct (search COURT_NUM_RE (b_text b1)). }
  split; [done|]. unfold detect_court_number. simpl. by rewrite Hscan.
Qed.

Lemma header_scan_stops_witness :
  scan_header_blocks ([Block 40 50 300 70 "Daily list"]
                      ++ Block 40 200 300 260 "5"
                         :: [Block 40 90 300 110 "COURT NO. 4"])
  = scan_header_blocks [Block 40 50 300 70 "Daily list"].
Proof.
  apply (header_scan_stops "" [Block 40 50 300 70 "Daily list"]
           [Block 40 90 300 110 "COURT NO. 4"] (Block 40 200 300 260 "5")
           [] 600 800).
  reflexivity.
Defined.

(** ** Lines of Roman numerals *)

Lemma fullmatch_roman s :
  is_match (fullmatch ROMAN_RE s) = true ↔ roman_shape s.
Proof.
  split.
  - unfold fullmatch. destruct (run _ _ _ _) as [m|] eqn:Hrun; [|done].
    intros _. apply run_sound in Hrun as (p' & c' & Hm & Hk).
    unfold accept_at_end in Hk. destruct (rest p') eqn:Hrest; [|done].
    unfold ROMAN_RE, Plus, oneof in Hm.
    inversion Hm as [| |? ? ? ? p1 c1 ? ? Hplus Hopt| | | | | | | |]; subst.
    inversion Hplus as [| |? ? ? ? p0 c0 ? ? Hone Hstar| | | | | | | |]; subst.
    apply matches_chr_inv in Hone as (a & Ha & [Hadv0 _] & _).
    apply matches_star_chr_inv in Hstar as (t & Ht & [Hadv1 _] & _).
    simpl in Hadv0. rewrite sapp_cons, sapp_nil_l in Hadv0.
    exists (String a t), (rest p1). rewrite sapp_cons, <-Hadv1.
    split_and!; [done|done|simpl; by rewrite Ha|].
    inversion Hopt as [| | |? ? ? ? ? ? Hl|? ? ? ? ? ? Hr| | | | | |]; subst.
    + right.
      inversion Hl as [| |? ? ? ? p2 c2 ? ? Hh Hu| | | | | | | |]; subst.
      apply matches_chr_inv in Hh as (x & Hx & [Hadv2 _] & _).
      apply matches_chr_inv in Hu as (u & Hu & [Hadv3 _] & _).
      apply Ascii.eqb_eq in Hx as <-. exists u. split; [done|].
      rewrite Hadv2, sapp_cons, sapp_nil_l, Hadv3, Hrest. done.
    + left. inversion Hr; subst. done.
  - intros (r & suffix & -> & Hne & Hr & Hsuf).
    destruct r as [|a r]; [done|]. simpl in Hr.
    apply andb_true_iff in Hr as [Ha Hr].
    assert (Hrun : is_Some (fullmatch ROMAN_RE (String a r +:+ suffix))).
    { unfold fullmatch.
      apply (run_complete _ accept_at_end _ _
               (Pos (last_char suffix (last_char r (Some a))) "") []); [|done].
      unfold ROMAN_RE, Plus, oneof. rewrite sapp_cons.
      eapply M_Seq.
      { eapply M_Seq; [by constructor|]. by apply matches_star_chr. }
      destruct Hsuf as [->|(u & Hu & ->)].
      - apply M_Alt_r. constructor.
      - apply M_Alt_l. eapply M_Seq; by constructor. }
    by destruct Hrun as [m ->].
Qed.

(** X26.  A line matches the Roman-numeral rule exactly when it is one or
    more of the capital letters I, V, X, L, C, alone or followed by a
    hyphen and one capital letter.  Every such line is a meta line, also
    one that is a name, like "LIC": it changes nothing, so it is never
    taken for a party. *)
Theorem roman_line_is_meta (s : string) (crt : option Z) (pno : nat)
    (is_left : bool) (st : pstate) :
  roman_shape s →
  (∀ t, is_match (fullmatch ROMAN_RE t) = true ↔ roman_shape t) ∧
  is_meta_line s = true ∧
  step_line crt pno is_left st s = st.
Proof.
  intros Hs.
  assert (Hmeta : is_meta_line s = true).
  { unfold is_meta_line. rewrite (proj2 (fullmatch_roman s)) by done.
    by repeat destruct (is_match _). }
  split_and!; [apply fullmatch_roman|done|].
  assert (Hstrip : strip s = s).
  { apply strip_by_fixed. destruct Hs as (r & suffix & -> & Hne & Hr & Hsuf).
    apply (forallb_chars_trimmed
             (fun a => contains_char a "IVXLC" || Ascii.eqb a "-" || isupper a)).
    - intros a. destruct a as [[] [] [] [] [] [] [] []]; vm_compute; congruence.
    - rewrite forallb_chars_app. apply andb_true_iff. split.
      + revert Hr. apply forallb_chars_impl. by intros a ->.
      + destruct Hsuf as [->|(u & Hu & ->)]; [done|]. simpl.
        rewrite Hu. by rewrite orb_true_r. }
  unfold step_line. rewrite Hstrip, Hmeta.
  destruct (negb (truthy s)); [done|].
  assert (Hserial : pmatch SERIAL_RE s = None).
  { destruct (pmatch SERIAL_RE s) as [m|] eqn:Hm; [|done].
    apply serial_match_sound in Hm as (ws & after & Hline & Hws & Hshape & _).
    destruct Hshape as (d & fr & Htok & Hd & Hlen & _). rewrite Htok in Hline.
    destruct Hs as (r & suffix & Hr & Hne & Hroman & _).
    destruct r as [|a r]; [done|]. simpl in Hroman.
    apply andb_true_iff in Hroman as [Ha _].
    rewrite Hr, sapp_cons in Hline.
    destruct ws as [|x ws].
    - destruct d as [|y d]; [simpl in Hlen; lia|].
      rewrite sapp_nil_l, !sapp_cons in Hline. injection Hline as <- _.
      simpl in Hd. apply andb_true_iff in Hd as [Hd _].
      revert Ha Hd. clear.
      destruct a as [[] [] [] [] [] [] [] []]; vm_compute; congruence.
    - rewrite sapp_cons in Hline. injection Hline as <- _.
      simpl in Hws. apply andb_true_iff in Hws as [Hx _].
      revert Ha Hx. clear.
      destruct a as [[] [] [] [] [] [] [] []]; vm_compute; congruence. }
  rewrite Hserial. by destruct is_left.
Qed.

Lemma roman_line_is_meta_witness :
  is_meta_line "LIC" = true ∧
  step_line (Some 2%Z) 0 true (PState [entry_8] (Some 0) false) "LIC"
  = PState [entry_8] (Some 0) false.
Proof.
  apply (roman_line_is_meta "LIC" (Some 2%Z) 0 true (PState [entry_8] (Some 0) false)).
  exists "LIC", "". split_and!; [done..|by left].
Defined.
